(** * AutoOrtho: the virtual-filesystem dispatch layer and its tile cache

    A shallow embedding of [autoortho/autoortho.py]: the path classifier
    ([dds_re]), the tile cache ([TileCacher]), the FUSE operations of
    [AutoOrtho] as programs over the calls they make to the host, and the
    threads that run them; then the properties stated about them.

    Python strings are modelled as lists of 8-bit characters; [\d] is the
    class of the ASCII digits. *)

From Stdlib Require Import List ZArith NArith Ascii String Bool Lia.
From Stdlib Require Import DecimalString DecimalZ DecimalPos.
Import ListNotations.

Set Implicit Arguments.

(** ** Strings *)

Definition str := list ascii.

Definition lit (x : string) : str := list_ascii_of_string x.

Definition str_eqb (a b : str) : bool :=
  if list_eq_dec ascii_dec a b then true else false.

Fixpoint startswith (s w : str) : bool :=
  match w, s with
  | [], _ => true
  | c :: w', x :: s' => Ascii.eqb x c && startswith s' w'
  | _ :: _, [] => false
  end.

Definition endswith (s w : str) : bool := startswith (rev s) (rev w).

(** ** The subset of Python's [re] used by the classifier

    A pattern is a sequence of nodes; matching is the backtracking search of
    [re.match]: anchored at the start of the subject, not at its end, greedy
    repetitions giving back one character at a time, first success wins. *)

Module Re.

Inductive cclass : Type :=
| Dot                       (* .   any character but a newline *)
| Digit                     (* \d  *)
| NonDigit                  (* \D  *)
| OneOf (l : list ascii)    (* [..] *)
| Chr (c : ascii).          (* a literal character *)

Inductive node : Type :=
| One (c : cclass)          (* c      *)
| Star (c : cclass)         (* c*     *)
| Plus (c : cclass)         (* c+     *)
| NotAhead (w : str)        (* (?!w)  *)
| GOpen                     (* (      *)
| GClose.                   (* )      *)

Definition regex := list node.

Definition is_digit (c : ascii) : bool :=
  let n := N_of_ascii c in ((48 <=? n) && (n <=? 57))%N.

Definition newline : ascii := ascii_of_N 10.

Definition accepts (c : cclass) (x : ascii) : bool :=
  match c with
  | Dot => negb (Ascii.eqb x newline)
  | Digit => is_digit x
  | NonDigit => negb (is_digit x)
  | OneOf l => existsb (Ascii.eqb x) l
  | Chr y => Ascii.eqb x y
  end.

(** Capture state: the groups already closed, in order, and the text of
    the group being matched, if one is open. *)
Record mstate : Type := { caps : list str; cur : option str }.

Definition eat (x : ascii) (m : mstate) : mstate :=
  {| caps := caps m; cur := option_map (fun w => w ++ [x]) (cur m) |}.

Definition eats (w : str) (m : mstate) : mstate := fold_left (fun m x => eat x m) w m.

Definition gopen (m : mstate) : mstate := {| caps := caps m; cur := Some [] |}.

Definition gclose (m : mstate) : mstate :=
  {| caps := caps m ++ [match cur m with Some w => w | None => [] end];
     cur := None |}.

(** Greedy repetition of a one-character class, then the continuation [k];
    on failure of the rest one repetition is given back. *)
Fixpoint star_loop {R : Type} (p : ascii -> bool)
    (k : str -> mstate -> option R) (inp : str) (m : mstate) : option R :=
  match inp with
  | x :: inp' =>
      if p x then
        match star_loop p k inp' (eat x m) with
        | Some g => Some g
        | None => k inp m
        end
      else k inp m
  | [] => k [] m
  end.

Fixpoint exec (r : regex) (inp : str) (m : mstate) {struct r} : option (list str) :=
  match r with
  | [] => Some (caps m)
  | n :: r' =>
      match n with
      | One c =>
          match inp with
          | x :: inp' => if accepts c x then exec r' inp' (eat x m) else None
          | [] => None
          end
      | Star c => star_loop (accepts c) (exec r') inp m
      | Plus c =>
          match inp with
          | x :: inp' =>
              if accepts c x then star_loop (accepts c) (exec r') inp' (eat x m)
              else None
          | [] => None
          end
      | NotAhead w => if startswith inp w then None else exec r' inp m
      | GOpen => exec r' inp (gopen m)
      | GClose => exec r' inp (gclose m)
      end
  end.

(** [re.compile(r).match(s)], reduced to [m.groups()] on success. *)
Definition rmatch (r : regex) (s : str) : option (list str) :=
  exec r s {| caps := []; cur := None |}.

End Re.

Import Re.

(** ** The classifier: the three patterns compiled in [AutoOrtho.__init__] *)

Definition sep_class : cclass := OneOf (lit "-_").

(** The pattern  .* / (\d+) [-_] (\d+) [-_] ( (?!ZL) \D* ) (\d+) . dds  (written
    without the spaces in the source); the part after the slash is [dds_tail]. *)
Definition dds_tail : regex :=
  [ GOpen; Plus Digit; GClose; One sep_class;
    GOpen; Plus Digit; GClose; One sep_class;
    GOpen; NotAhead (lit "ZL"); Star NonDigit; GClose;
    GOpen; Plus Digit; GClose;
    One Dot; One (Chr "d"); One (Chr "d"); One (Chr "s") ].

Definition dds_re : regex := Star Dot :: One (Chr "/") :: dds_tail.

(** The pattern  .* / [-+] \d+ [-+] \d+ . dsf *)
Definition dsf_re : regex :=
  [ Star Dot; One (Chr "/"); One (OneOf (lit "-+")); Plus Digit;
    One (OneOf (lit "-+")); Plus Digit;
    One Dot; One (Chr "d"); One (Chr "s"); One (Chr "f") ].

(** The pattern  .* / \d+ [-_] \d+ [-_] ( \D* ) (\d+) . ter *)
Definition ter_re : regex :=
  [ Star Dot; One (Chr "/"); Plus Digit; One sep_class; Plus Digit; One sep_class;
    GOpen; Star NonDigit; GClose; GOpen; Plus Digit; GClose;
    One Dot; One (Chr "t"); One (Chr "e"); One (Chr "r") ].

(** [self.dds_re.match(path)] with the result unpacked as
    [row, col, maptype, zoom = m.groups()]. *)
Definition dds_match (path : str) : option (str * str * str * str) :=
  match rmatch dds_re path with
  | Some [row; col; maptype; zoom] => Some (row, col, maptype, zoom)
  | _ => None
  end.

(** ** Integers and their decimal text *)

(** [int(s)] on a run of decimal digits. *)
Definition digit_val (c : ascii) : Z := (Z.of_N (N_of_ascii c) - 48)%Z.

Definition py_int (s : str) : Z :=
  fold_left (fun acc c => 10 * acc + digit_val c)%Z s 0%Z.

(** [str(n)], the text an f-string interpolates for an integer. *)
Definition py_str (n : Z) : str := lit (NilZero.string_of_int (Z.to_int n)).

(** ** [posixpath]: the library functions used by [_full_path] *)

Module posixpath.

Definition sep : ascii := "/".

Definition is_empty (s : str) : bool := match s with [] => true | _ => false end.

Definition isabs (p : str) : bool := startswith p [sep].

(** [os.path.join(a, b)] *)
Definition join (a b : str) : str :=
  if startswith b [sep] then b
  else if is_empty a || endswith a [sep] then a ++ b
  else a ++ sep :: b.

(** [path.split('/')] *)
Fixpoint str_split (s : str) : list str :=
  match s with
  | [] => [[]]
  | c :: s' =>
      if Ascii.eqb c sep then [] :: str_split s'
      else match str_split s' with
           | w :: l => (c :: w) :: l
           | [] => [[c]]
           end
  end.

(** ['/'.join(comps)] *)
Fixpoint sep_join (l : list str) : str :=
  match l with
  | [] => []
  | [x] => x
  | x :: l' => x ++ sep :: sep_join l'
  end.

Definition dot : str := lit ".".
Definition dotdot : str := lit "..".

Definition is_nil (l : list str) : bool := match l with [] => true | _ => false end.

(** One turn of the loop of [normpath] over the components. *)
Definition norm_step (initial_slashes : nat) (new_comps : list str) (comp : str) : list str :=
  if str_eqb comp [] || str_eqb comp dot then new_comps
  else if negb (str_eqb comp dotdot)
          || ((initial_slashes =? 0)%nat && is_nil new_comps)
          || (negb (is_nil new_comps) && str_eqb (last new_comps []) dotdot)
  then new_comps ++ [comp]
  else removelast new_comps.

(** The number of leading slashes [normpath] keeps: POSIX allows one or
    two, three or more count as one. *)
Definition initial_slashes (path : str) : nat :=
  if startswith path [sep] then
    if startswith path [sep; sep] && negb (startswith path [sep; sep; sep]) then 2 else 1
  else 0.

Definition norm_comps (path : str) : list str :=
  fold_left (norm_step (initial_slashes path)) (str_split path) [].

Definition normpath (path : str) : str :=
  if is_empty path then dot
  else
    let path' := repeat sep (initial_slashes path) ++ sep_join (norm_comps path) in
    if is_empty path' then dot else path'.

(** [os.path.abspath(path)], with [cwd] the value of [os.getcwd()]. *)
Definition abspath (cwd path : str) : str :=
  normpath (if isabs path then path else join cwd path).

End posixpath.

Local Open Scope Z_scope.

(** ** The boundary: host filesystem, platform and tile provider

    Everything the operations ask of the outside is a call; an operation is
    a program issuing calls, and a handler (the host) answers them.  A call
    answered by [inl e] raised [OSError] with errno [e]. *)

Definition errno := Z.
Definition ENOENT : errno := 2.
Definition EACCES : errno := 13.

Definition bytes := list Byte.byte.

(** A tile object, by its identity as a Python object. *)
Definition addr := nat.

(** A number as the source writes it: an integer or a decimal literal
    [mantissa * 10^-places]. *)
Inductive number : Type :=
| Int (z : Z)
| Dec (mantissa : Z) (places : nat).

(** The dictionary built by [getattr]. *)
Record attrs : Type := mkAttrs {
  st_atime : number;
  st_ctime : number;
  st_gid : Z;
  st_uid : Z;
  st_mode : Z;
  st_mtime : number;
  st_nlink : Z;
  st_size : Z;
  st_blksize : option Z
}.

Record statvfs : Type := mkStatvfs {
  f_bavail : Z; f_bfree : Z; f_blocks : Z; f_bsize : Z; f_favail : Z;
  f_ffree : Z; f_files : Z; f_flag : Z; f_frsize : Z; f_namemax : Z
}.

Inductive extcall : Type -> Type :=
| os_path_exists (p : str) : extcall bool
| os_path_isdir (p : str) : extcall bool
| os_path_relpath (p start : str) : extcall str
| os_access (p : str) (mode : Z) : extcall bool
| os_chmod (p : str) (mode : Z) : extcall unit
| os_chown (p : str) (uid gid : Z) : extcall unit
| os_lstat (p : str) : extcall attrs
| os_listdir (p : str) : extcall (list str)
| os_readlink (p : str) : extcall str
| os_mknod (p : str) (mode dev : Z) : extcall unit
| os_rmdir (p : str) : extcall unit
| os_mkdir (p : str) (mode : Z) : extcall unit
| platform_system : extcall str
| os_statvfs (p : str) : extcall statvfs
| os_unlink (p : str) : extcall unit
| os_symlink (target p : str) : extcall unit
| os_rename (a b : str) : extcall unit
| os_link (a b : str) : extcall unit
| os_utime (p : str) (times : option (number * number)) : extcall unit
| os_open (p : str) (flags : Z) (mode : option Z) : extcall Z
| fuse_get_context : extcall (Z * Z * Z)
| os_lseek (fh offset : Z) : extcall Z
| os_read (fh length : Z) : extcall bytes
| os_write (fh : Z) (buf : bytes) : extcall Z
| os_fsync (fh : Z) : extcall unit
| os_close (fh : Z) : extcall unit
| open_rplus (p : str) : extcall Z            (* open(p, 'r+'), the file object *)
| file_truncate (f length : Z) : extcall Z    (* f.truncate(length) *)
| file_close (f : Z) : extcall unit           (* leaving the with block *)
| getortho_Tile (col row : Z) (map_type : str) (zoom : Z) (cache_dir : str) : extcall unit
    (* the constructor getortho.Tile(col, row, map_type, zoom, cache_dir=...) *)
| read_dds_bytes (t : addr) (offset length : Z) : extcall bytes.

(** The host paths a call names. *)
Definition call_paths {X : Type} (c : extcall X) : list str :=
  match c with
  | os_path_exists p | os_path_isdir p | os_access p _ | os_chmod p _
  | os_chown p _ _ | os_lstat p | os_listdir p | os_readlink p
  | os_mknod p _ _ | os_rmdir p | os_mkdir p _ | os_statvfs p | os_unlink p
  | os_symlink _ p | os_utime p _ | os_open p _ _ | open_rplus p => [p]
  | os_rename a b | os_link a b => [a; b]
  | _ => []
  end.

Inductive prog (A : Type) : Type :=
| Ret (a : A)
| Call (X : Type) (c : extcall X) (k : errno + X -> prog A).

Arguments Ret {A} a.
Arguments Call {A X} c k.

Definition handler (S : Type) : Type := forall X : Type, extcall X -> S -> (errno + X) * S.

Record ran (A S : Type) : Type := mkRan {
  result : A;            (* what the program returned *)
  host : S;              (* the host afterwards *)
  touched : list str     (* the host paths of the calls issued, in order *)
}.

Fixpoint run {A S : Type} (h : handler S) (p : prog A) (s : S) : ran A S :=
  match p with
  | Ret a => mkRan a s []
  | Call c k =>
      let '(r, s') := h _ c s in
      let out := run h (k r) s' in
      mkRan (result out) (host out) (call_paths c ++ touched out)
  end.

(** A call with its arguments, whatever the type of its answer. *)
Inductive anycall : Type :=
| Issued (X : Type) (c : extcall X).

Arguments Issued {X} c.

(** The calls a program issues when run on host [h], in order. *)
Fixpoint calls_of {A S : Type} (h : handler S) (p : prog A) (s : S) : list anycall :=
  match p with
  | Ret _ => []
  | Call c k => let '(r, s') := h _ c s in Issued c :: calls_of h (k r) s'
  end.

(** Sequencing: [p], then [k] on what [p] returned. *)
Fixpoint pbind {A B : Type} (p : prog A) (k : A -> prog B) : prog B :=
  match p with
  | Ret a => k a
  | Call c k' => Call c (fun r => pbind (k' r) k)
  end.

Inductive outcome (V : Type) : Type :=
| Ok (v : V)
| Err (e : errno).    (* the exception leaving the operation *)

Arguments Ok {V} v.
Arguments Err {V} e.

(** ** The tile cache: [class TileCacher]

    Tile objects are shared and mutated in place ([t.refs += 1] on an object
    that [self.tiles] also references), so tiles live in a store addressed by
    object identity and the dictionary maps keys to addresses.  The
    dictionary is an association list in insertion order, as a Python
    [dict] iterates. *)

Record Tile : Type := mkTile {
  t_col : Z;
  t_row : Z;
  t_maptype : str;
  t_zoom : Z;
  t_cache_dir : str;
  refs : Z;
  closed : bool
}.

Record TileCacher : Type := mkTileCacher {
  maptype_override : option str;
  cache_dir : str;
  tiles : list (str * addr);
  store : list Tile;
  hits : Z;
  misses : Z
}.

(** Modelled from the spec: [getortho.Tile], the tile content provider, is
    not among the sources.  Its constructor is a call to the provider
    ([getortho_Tile]) and may fail; [new_tile] is the object a call that
    succeeds returns: a handle with reference count 0 (the count of
    currently open virtual files) and not yet closed. *)
Definition new_tile (col row : Z) (map_type : str) (zoom : Z) (cache_dir : str) : Tile :=
  mkTile col row map_type zoom cache_dir 0 false.

(** *** Dictionary operations on [self.tiles] *)

Fixpoint dict_get (d : list (str * addr)) (k : str) : option addr :=
  match d with
  | [] => None
  | (k', v) :: d' => if str_eqb k' k then Some v else dict_get d' k
  end.

(** [d[k] = v]: an existing key keeps its position, a new one goes last. *)
Fixpoint dict_set (d : list (str * addr)) (k : str) (v : addr) : list (str * addr) :=
  match d with
  | [] => [(k, v)]
  | (k', v') :: d' => if str_eqb k' k then (k', v) :: d' else (k', v') :: dict_set d' k v
  end.

(** [d.pop(k)], the dictionary that remains. *)
Fixpoint dict_pop (d : list (str * addr)) (k : str) : list (str * addr) :=
  match d with
  | [] => []
  | (k', v') :: d' => if str_eqb k' k then d' else (k', v') :: dict_pop d' k
  end.

Definition dict_keys (d : list (str * addr)) : list str := map fst d.

(** *** The store of tile objects *)

Definition deref (st : list Tile) (a : addr) : option Tile := nth_error st a.

Fixpoint store_upd (st : list Tile) (a : addr) (f : Tile -> Tile) : list Tile :=
  match st, a with
  | [], _ => []
  | t :: st', O => f t :: st'
  | t :: st', S a' => t :: store_upd st' a' f
  end.

Definition add_refs (d : Z) (t : Tile) : Tile :=
  mkTile (t_col t) (t_row t) (t_maptype t) (t_zoom t) (t_cache_dir t) (refs t + d) (closed t).

Definition close_tile (t : Tile) : Tile :=
  mkTile (t_col t) (t_row t) (t_maptype t) (t_zoom t) (t_cache_dir t) (refs t) true.

Definition with_store (tc : TileCacher) (st : list Tile) : TileCacher :=
  mkTileCacher (maptype_override tc) (cache_dir tc) (tiles tc) st (hits tc) (misses tc).

Definition count_hit (tc : TileCacher) : TileCacher :=
  mkTileCacher (maptype_override tc) (cache_dir tc) (tiles tc) (store tc) (hits tc + 1) (misses tc).

Definition count_miss (tc : TileCacher) : TileCacher :=
  mkTileCacher (maptype_override tc) (cache_dir tc) (tiles tc) (store tc) (hits tc) (misses tc + 1).

(** [t.refs += d] on the object at [a]. *)
Definition bump_refs (tc : TileCacher) (a : addr) (d : Z) : TileCacher :=
  with_store tc (store_upd (store tc) a (add_refs d)).

(** [t.refs] of the object at [a]; [None] is an address never allocated. *)
Definition refs_at (tc : TileCacher) (a : addr) : option Z := option_map refs (deref (store tc) a).

(** The number of tiles constructed so far: every call of the constructor
    [getortho.Tile] that succeeds allocates one object and nothing else
    allocates. *)
Definition constructed (tc : TileCacher) : nat := List.length (store tc).

(** *** [_get_tile] *)

(** [if self.maptype_override: map_type = self.maptype_override]: [None]
    and the empty string are both false. *)
Definition effective_maptype (tc : TileCacher) (map_type : str) : str :=
  match maptype_override tc with
  | Some (c :: o) => c :: o
  | _ => map_type
  end.

(** The f-string  {row}_{col}_{map_type}_{zoom} *)
Definition tile_idx (row col : Z) (map_type : str) (zoom : Z) : str :=
  py_str row ++ lit "_" ++ py_str col ++ lit "_" ++ map_type ++ lit "_" ++ py_str zoom.

(** The second critical section once the constructor has returned: the
    new tile is allocated and inserted. *)
Definition create_tile (tc : TileCacher) (idx : str) (row col : Z) (map_type : str) (zoom : Z)
  : addr * TileCacher :=
  let a := List.length (store tc) in
  let tile := new_tile col row map_type zoom (cache_dir tc) in
  (a, mkTileCacher (maptype_override tc) (cache_dir tc)
        (dict_set (tiles tc) idx a) (store tc ++ [tile]) (hits tc) (misses tc)).

Definition idle (tc : TileCacher) (a : addr) : bool :=
  match deref (store tc) a with
  | Some t => refs t <=? 0
  | None => false
  end.

(** [_get_tile(row, col, map_type, zoom)] run without interruption; returns
    the tile (its address), or the exception the constructor raised, and
    the cache afterwards.  [not tile] is true of [None] only: a tile object
    is true.  When the constructor raises, the miss has been counted and
    the assignment [self.tiles[idx] = tile] is not reached. *)
Definition _get_tile (tc : TileCacher) (row col : Z) (map_type : str) (zoom : Z)
  : prog ((errno + addr) * TileCacher) :=
  let map_type := effective_maptype tc map_type in
  let idx := tile_idx row col map_type zoom in
  match dict_get (tiles tc) idx with
  | None =>
      let tc := count_miss tc in
      Call (getortho_Tile col row map_type zoom (cache_dir tc)) (fun r =>
        match r with
        | inl e => Ret (inl e, tc)
        | inr _ =>
            let '(tile, tc) := create_tile tc idx row col map_type zoom in
            Ret (inr tile, tc)
        end)
  | Some tile => Ret (inr tile, if idle tc tile then count_hit tc else tc)
  end.

(** *** [clean]: the reclamation loop *)

Definition memlimit : Z := 2 ^ 30 * 2.

(** [t = self.tiles.pop(i); t.close()], with [t] the tile at address [a]. *)
Definition evict (tc : TileCacher) (i : str) (a : addr) : TileCacher :=
  mkTileCacher (maptype_override tc) (cache_dir tc)
    (dict_pop (tiles tc) i) (store_upd (store tc) a close_tile) (hits tc) (misses tc).

(** The body of the inner [for] for one key [i]: the tile is popped and
    closed when its count is at most 0. *)
Definition clean_key (tc : TileCacher) (i : str) : TileCacher :=
  match dict_get (tiles tc) i with
  | Some t => if idle tc t then evict tc i t else tc
  | None => tc
  end.

(** One turn of the inner [while]: under the lock, the first 20 keys. *)
Definition clean_pass (tc : TileCacher) : TileCacher :=
  fold_left clean_key (firstn 20 (dict_keys (tiles tc))) tc.

Definition over_limit (tc : TileCacher) (cur_mem : Z) : bool :=
  (90 <=? Z.of_nat (List.length (tiles tc))) && (memlimit <? cur_mem).


(** ** The dispatch layer: [class AutoOrtho] *)

Record AutoOrtho : Type := mkAutoOrtho {
  root : str;
  default_uid : Z;
  default_gid : Z;
  tc : TileCacher
}.

Definition with_tc (ao : AutoOrtho) (c : TileCacher) : AutoOrtho :=
  mkAutoOrtho (root ao) (default_uid ao) (default_gid ao) c.

(** What an operation yields: its return value or the error it raised, and
    the object afterwards. *)
Definition op (V : Type) : Type := prog (outcome V * AutoOrtho).

(** [t = self.tc._get_tile(...)]: an exception of the constructor leaves
    the operation, with the cache as [_get_tile] left it. *)
Definition get_tile {V : Type} (ao : AutoOrtho) (row col : Z) (map_type : str) (zoom : Z)
    (k : addr -> TileCacher -> op V) : op V :=
  pbind (_get_tile (tc ao) row col map_type zoom) (fun '(r, tc1) =>
    match r with
    | inl e => Ret (Err e, with_tc ao tc1)
    | inr t => k t tc1
    end).

(** A call whose exception is not caught by the operation. *)
Definition call {X V : Type} (c : extcall X) (ao : AutoOrtho) (k : X -> op V) : op V :=
  Call c (fun r => match r with inl e => Ret (Err e, ao) | inr x => k x end).

Definition ret {V : Type} (v : V) (ao : AutoOrtho) : op V := Ret (Ok v, ao).

(** The attribute record of every virtual file. *)
Definition virtual_attrs (ao : AutoOrtho) : attrs :=
  {| st_atime := Dec 1649857250382081 6;
     st_ctime := Dec 1649857251726115 6;
     st_gid := default_gid ao;
     st_uid := default_uid ao;
     st_mode := 33204;
     st_mtime := Dec 1649857251726115 6;
     st_nlink := 1;
     st_size := 22369744;
     st_blksize := Some 32768 |}.

Definition windows_statfs : statvfs :=
  {| f_bavail := 1024; f_bfree := 1024; f_blocks := 1204; f_bsize := 4096;
     f_favail := 1024; f_ffree := 1024; f_files := 1024; f_flag := 0;
     f_frsize := 1024; f_namemax := 1024 |}.

Definition O_WRONLY_or_O_CREAT : Z := Z.lor 1 64.

Section Dispatch.

(** [os.getcwd()], read by [os.path.abspath] for a relative path. *)
Variable cwd : str.

Definition _full_path (ao : AutoOrtho) (partial : str) : str :=
  let partial := if startswith partial (lit "/") then tl partial else partial in
  posixpath.abspath cwd (posixpath.join (root ao) partial).

Definition _access (ao : AutoOrtho) (path : str) (mode : Z) : op unit :=
  let full_path := _full_path ao path in
  call (os_access full_path mode) ao (fun ok =>
    if ok then ret tt ao else Ret (Err EACCES, ao)).

Definition chmod (ao : AutoOrtho) (path : str) (mode : Z) : op unit :=
  let full_path := _full_path ao path in
  call (os_chmod full_path mode) ao (fun r => ret r ao).

Definition chown (ao : AutoOrtho) (path : str) (uid gid : Z) : op unit :=
  let full_path := _full_path ao path in
  call (os_chown full_path uid gid) ao (fun r => ret r ao).

Definition getattr (ao : AutoOrtho) (path : str) (fh : option Z) : op attrs :=
  let full_path := _full_path ao path in
  Call (os_path_exists full_path) (fun _exists =>
    match dds_match path with
    | Some (row, col, maptype, zoom) => ret (virtual_attrs ao) ao
    | None =>
        let full_path := _full_path ao path in
        call (os_lstat full_path) ao (fun st =>
          ret (mkAttrs (st_atime st) (st_ctime st) (st_gid st) (st_uid st) (st_mode st)
                 (st_mtime st) (st_nlink st) (st_size st) None) ao)
    end).

Definition readdir (ao : AutoOrtho) (path : str) (fh : Z) : op (list str) :=
  let full_path := _full_path ao path in
  let dirents := [lit "."; lit ".."] in
  Call (os_path_isdir full_path) (fun isdir =>
    match isdir with
    | inr true => call (os_listdir full_path) ao (fun l => ret (dirents ++ l) ao)
    | _ => ret dirents ao
    end).

Definition readlink (ao : AutoOrtho) (path : str) : op str :=
  call (os_readlink (_full_path ao path)) ao (fun pathname =>
    if startswith pathname (lit "/")
    then call (os_path_relpath pathname (root ao)) ao (fun r => ret r ao)
    else ret pathname ao).

Definition mknod (ao : AutoOrtho) (path : str) (mode dev : Z) : op unit :=
  call (os_mknod (_full_path ao path) mode dev) ao (fun r => ret r ao).

Definition rmdir (ao : AutoOrtho) (path : str) : op unit :=
  let full_path := _full_path ao path in
  call (os_rmdir full_path) ao (fun r => ret r ao).

Definition mkdir (ao : AutoOrtho) (path : str) (mode : Z) : op unit :=
  call (os_mkdir (_full_path ao path) mode) ao (fun r => ret r ao).

Definition statfs (ao : AutoOrtho) (path : str) : op (option statvfs) :=
  let full_path := _full_path ao path in
  call platform_system ao (fun sys =>
    if str_eqb sys (lit "Windows") then ret (Some windows_statfs) ao
    else
      call platform_system ao (fun sys' =>
        if str_eqb sys' (lit "Linux")
        then call (os_statvfs full_path) ao (fun stv => ret (Some stv) ao)
        else ret None ao)).

Definition unlink (ao : AutoOrtho) (path : str) : op unit :=
  call (os_unlink (_full_path ao path)) ao (fun r => ret r ao).

Definition symlink (ao : AutoOrtho) (name target : str) : op unit :=
  call (os_symlink target (_full_path ao name)) ao (fun r => ret r ao).

Definition rename (ao : AutoOrtho) (old new : str) : op unit :=
  call (os_rename (_full_path ao old) (_full_path ao new)) ao (fun r => ret r ao).

Definition link (ao : AutoOrtho) (target name : str) : op unit :=
  call (os_link (_full_path ao name) (_full_path ao target)) ao (fun r => ret r ao).

Definition utimens (ao : AutoOrtho) (path : str) (times : option (number * number)) : op unit :=
  call (os_utime (_full_path ao path) times) ao (fun r => ret r ao).

Definition open (ao : AutoOrtho) (path : str) (flags : Z) : op Z :=
  let h := 0 in
  let full_path := _full_path ao path in
  match dds_match path with
  | Some (row, col, maptype, zoom) =>
      let row := py_int row in
      let col := py_int col in
      let zoom := py_int zoom in
      get_tile ao row col maptype zoom (fun t tc1 =>
        ret h (with_tc ao (bump_refs tc1 t 1)))
  | None => call (os_open full_path flags None) ao (fun h => ret h ao)
  end.

Definition _create (ao : AutoOrtho) (path : str) (mode : Z) : op Z :=
  call fuse_get_context ao (fun '(uid, gid, pid) =>
    let full_path := _full_path ao path in
    call (os_open full_path O_WRONLY_or_O_CREAT (Some mode)) ao (fun fd =>
      call (os_chown full_path uid gid) ao (fun _ => ret fd ao))).

Definition read (ao : AutoOrtho) (path : str) (length offset fh : Z) : op bytes :=
  match dds_match path with
  | Some (row, col, maptype, zoom) =>
      let row := py_int row in
      let col := py_int col in
      let zoom := py_int zoom in
      get_tile ao row col maptype zoom (fun t tc1 =>
        let ao1 := with_tc ao tc1 in
        call (read_dds_bytes t offset length) ao1 (fun data => ret data ao1))
  | None =>
      call (os_lseek fh offset) ao (fun _ =>
        call (os_read fh length) ao (fun data => ret data ao))
  end.

Definition _write (ao : AutoOrtho) (path : str) (buf : bytes) (offset fh : Z) : op Z :=
  call (os_lseek fh offset) ao (fun _ =>
    call (os_write fh buf) ao (fun n => ret n ao)).

Definition truncate (ao : AutoOrtho) (path : str) (length : Z) (fh : option Z) : op unit :=
  let full_path := _full_path ao path in
  call (open_rplus full_path) ao (fun f =>
    Call (file_truncate f length) (fun r =>
      Call (file_close f) (fun c =>
        match c, r with
        | inl e, _ => Ret (Err e, ao)
        | inr _, inl e => Ret (Err e, ao)
        | inr _, inr _ => ret tt ao
        end))).

(** Returns 0 for a virtual file and the [None] of [os.fsync] otherwise. *)
Definition _flush (ao : AutoOrtho) (path : str) (fh : Z) : op (option Z) :=
  match dds_match path with
  | Some _ => ret (Some 0) ao
  | None => call (os_fsync fh) ao (fun _ => ret None ao)
  end.

Definition _releasedir (ao : AutoOrtho) (path : str) (fh : Z) : op Z := ret 0 ao.

Definition release (ao : AutoOrtho) (path : str) (fh : Z) : op (option Z) :=
  match dds_match path with
  | Some (row, col, maptype, zoom) =>
      let row := py_int row in
      let col := py_int col in
      let zoom := py_int zoom in
      get_tile ao row col maptype zoom (fun t tc1 =>
        ret (Some 0) (with_tc ao (bump_refs tc1 t (-1))))
  | None => call (os_close fh) ao (fun _ => ret None ao)
  end.

Definition close (ao : AutoOrtho) (path : str) (fh : Z) : op Z := ret 0 ao.

End Dispatch.

(** *** Requests as the filesystem service delivers them *)

Inductive request : Type :=
| Access (path : str) (mode : Z)
| Chmod (path : str) (mode : Z)
| Chown (path : str) (uid gid : Z)
| Getattr (path : str) (fh : option Z)
| Readdir (path : str) (fh : Z)
| Readlink (path : str)
| Mknod (path : str) (mode dev : Z)
| Rmdir (path : str)
| Mkdir (path : str) (mode : Z)
| Statfs (path : str)
| Unlink (path : str)
| Symlink (name target : str)
| Rename (old new : str)
| Link (target name : str)
| Utimens (path : str) (times : option (number * number))
| Open (path : str) (flags : Z)
| Create (path : str) (mode : Z)
| Read (path : str) (length offset fh : Z)
| Write (path : str) (buf : bytes) (offset fh : Z)
| Truncate (path : str) (length : Z) (fh : option Z)
| Flush (path : str) (fh : Z)
| Releasedir (path : str) (fh : Z)
| Release (path : str) (fh : Z)
| Close (path : str) (fh : Z).

(** The paths of the mounted tree a request names. *)
Definition request_paths (r : request) : list str :=
  match r with
  | Access p _ | Chmod p _ | Chown p _ _ | Getattr p _ | Readdir p _ | Readlink p
  | Mknod p _ _ | Rmdir p | Mkdir p _ | Statfs p | Unlink p | Utimens p _
  | Open p _ | Create p _ | Read p _ _ _ | Write p _ _ _ | Truncate p _ _
  | Flush p _ | Releasedir p _ | Release p _ | Close p _ => [p]
  | Symlink name _ => [name]
  | Rename a b | Link a b => [a; b]
  end.

Inductive reply : Type :=
| RNone
| RInt (z : Z)
| RAttrs (a : attrs)
| RNames (l : list str)
| RStr (s : str)
| RStatfs (s : statvfs)
| RBytes (b : bytes).

Fixpoint pmap {A B : Type} (f : A -> B) (p : prog A) : prog B :=
  match p with
  | Ret a => Ret (f a)
  | Call c k => Call c (fun r => pmap f (k r))
  end.

Definition replying {V : Type} (f : V -> reply) (p : op V) : op reply :=
  pmap (fun '(o, ao) => (match o with Ok v => Ok (f v) | Err e => Err e end, ao)) p.

Definition opt_reply {V : Type} (f : V -> reply) (o : option V) : reply :=
  match o with Some v => f v | None => RNone end.

Definition serve (cwd : str) (ao : AutoOrtho) (r : request) : op reply :=
  match r with
  | Access p mode => replying (fun _ => RNone) (_access cwd ao p mode)
  | Chmod p mode => replying (fun _ => RNone) (chmod cwd ao p mode)
  | Chown p uid gid => replying (fun _ => RNone) (chown cwd ao p uid gid)
  | Getattr p fh => replying RAttrs (getattr cwd ao p fh)
  | Readdir p fh => replying RNames (readdir cwd ao p fh)
  | Readlink p => replying RStr (readlink cwd ao p)
  | Mknod p mode dev => replying (fun _ => RNone) (mknod cwd ao p mode dev)
  | Rmdir p => replying (fun _ => RNone) (rmdir cwd ao p)
  | Mkdir p mode => replying (fun _ => RNone) (mkdir cwd ao p mode)
  | Statfs p => replying (opt_reply RStatfs) (statfs cwd ao p)
  | Unlink p => replying (fun _ => RNone) (unlink cwd ao p)
  | Symlink name target => replying (fun _ => RNone) (symlink cwd ao name target)
  | Rename old new => replying (fun _ => RNone) (rename cwd ao old new)
  | Link target name => replying (fun _ => RNone) (link cwd ao target name)
  | Utimens p times => replying (fun _ => RNone) (utimens cwd ao p times)
  | Open p flags => replying RInt (open cwd ao p flags)
  | Create p mode => replying RInt (_create cwd ao p mode)
  | Read p length offset fh => replying RBytes (read ao p length offset fh)
  | Write p buf offset fh => replying RInt (_write ao p buf offset fh)
  | Truncate p length fh => replying (fun _ => RNone) (truncate cwd ao p length fh)
  | Flush p fh => replying (opt_reply RInt) (_flush ao p fh)
  | Releasedir p fh => replying RInt (_releasedir ao p fh)
  | Release p fh => replying (opt_reply RInt) (release ao p fh)
  | Close p fh => replying RInt (close ao p fh)
  end.

(** The object after a request has been served by host [h]. *)
Definition after {S : Type} (cwd : str) (h : handler S) (s : S) (ao : AutoOrtho) (r : request)
  : AutoOrtho * S :=
  let out := run h (serve cwd ao r) s in (snd (result out), host out).

(** A sequence of requests served one after the other. *)
Fixpoint serve_all {S : Type} (cwd : str) (h : handler S) (s : S) (ao : AutoOrtho)
    (rs : list request) : AutoOrtho * S :=
  match rs with
  | [] => (ao, s)
  | r :: rs' => let '(ao', s') := after cwd h s ao r in serve_all cwd h s' ao' rs'
  end.

(** The cache key [open], [read] and [release] form for a path. *)
Definition path_key (tc0 : TileCacher) (path : str) : option str :=
  match dds_match path with
  | Some (row, col, maptype, zoom) =>
      Some (tile_idx (py_int row) (py_int col) (effective_maptype tc0 maptype) (py_int zoom))
  | None => None
  end.

(** The reference count of the handle cached under a key; a key without a
    handle has no opener and counts 0. *)
Definition refcount (tc0 : TileCacher) (idx : str) : Z :=
  match dict_get (tiles tc0) idx with
  | Some a => match refs_at tc0 a with Some n => n | None => 0 end
  | None => 0
  end.

(** ** Threads

    The filesystem service calls the operations from several threads and
    [clean] runs in one more.  A thread advances by steps between which
    another thread may run.  The two [with self.tile_lock] blocks of
    [_get_tile] are one step each; [clean] holds the lock over its whole
    [for] loop, which keeps the other threads out of their own locked blocks
    but not out of [t.refs += 1], which [open] and [release] execute without
    the lock. *)

Module Threads.

(** Where a call of [_get_tile] stands. *)
Inductive gt_pc : Type :=
| GtLookup (row col : Z) (map_type : str) (zoom : Z)
    (* entered; the locked [self.tiles.get(idx)] is next *)
| GtMissed (idx : str) (row col : Z) (map_type : str) (zoom : Z)
    (* [tile] is None; [self.misses += 1] is next *)
| GtCreate (idx : str) (row col : Z) (map_type : str) (zoom : Z)
    (* the locked construction and insertion is next *)
| GtFound (tile : addr)
    (* a tile was found; the test [tile.refs <= 0] is next *)
| GtReturn (tile : addr)
| GtRaise (e : errno).
    (* the constructor raised; the exception leaves [_get_tile] *)

(** One step of [_get_tile]; [None] when the step needs the lock and the
    lock is taken, or when the call has returned or raised.  [built] is
    what the constructor answers if the call reaches it. *)
Definition gt_step (locked : bool) (built : errno + unit) (c : TileCacher) (pc : gt_pc)
  : option (TileCacher * gt_pc) :=
  match pc with
  | GtLookup row col map_type zoom =>
      if locked then None
      else
        let map_type := effective_maptype c map_type in
        let idx := tile_idx row col map_type zoom in
        match dict_get (tiles c) idx with
        | None => Some (c, GtMissed idx row col map_type zoom)
        | Some tile => Some (c, GtFound tile)
        end
  | GtMissed idx row col map_type zoom =>
      Some (count_miss c, GtCreate idx row col map_type zoom)
  | GtCreate idx row col map_type zoom =>
      if locked then None
      else
        match built with
        | inl e => Some (c, GtRaise e)
        | inr _ => let '(a, c') := create_tile c idx row col map_type zoom in Some (c', GtReturn a)
        end
  | GtFound tile =>
      Some (if idle c tile then count_hit c else c, GtReturn tile)
  | GtReturn _ | GtRaise _ => None
  end.

(** Where [clean] stands within one cycle. *)
Inductive clean_pc : Type :=
| CWhile (cur_mem : Z) (samples : list Z)
    (* at the test of the inner [while] *)
| CFor (keys : list str) (samples : list Z)
    (* holding the lock, at the head of the [for] over the remaining keys *)
| CPop (i : str) (keys : list str) (samples : list Z)
    (* holding the lock; [t.refs <= 0] was true, [self.tiles.pop(i)] is next *)
| CEnd.

(** What is to follow the return of [_get_tile]. *)
Inductive caller : Type :=
| Bare                      (* a call of [_get_tile] by itself *)
| Bumping (d : Z).          (* [open] (d = 1) or [release] (d = -1) *)

Inductive thread : Type :=
| InGetTile (who : caller) (built : errno + unit) (pc : gt_pc)
    (* in [_get_tile]; the constructor, if called, answers [built] *)
| Bump (t : addr) (d : Z)       (* [t.refs += d] is next *)
| Finished (t : addr)           (* returned, having obtained tile [t] *)
| Raised (e : errno)            (* left by the exception of the constructor *)
| Cleaner (c : clean_pc).

Record world : Type := mkWorld {
  w_tc : TileCacher;
  w_locked : bool;                (* [tile_lock] is held by [clean] *)
  w_threads : list thread;
  w_evicted : list (addr * Z)     (* tiles popped by [clean], each with its
                                     [refs] at the moment of the pop *)
}.

Definition clean_step (c : TileCacher) (pc : clean_pc)
  : option (TileCacher * clean_pc * bool * list (addr * Z)) :=
  match pc with
  | CWhile cur_mem samples =>
      if over_limit c cur_mem
      then Some (c, CFor (firstn 20 (dict_keys (tiles c))) samples, true, [])
      else Some (c, CEnd, false, [])
  | CFor (i :: keys) samples =>
      match dict_get (tiles c) i with
      | Some t =>
          if idle c t then Some (c, CPop i keys samples, true, [])
          else Some (c, CFor keys samples, true, [])
      | None => None
      end
  | CFor [] samples =>
      match samples with
      | m :: samples' => Some (c, CWhile m samples', false, [])
      | [] => Some (c, CEnd, false, [])
      end
  | CPop i keys samples =>
      match dict_get (tiles c) i with
      | Some t =>
          Some (mkTileCacher (maptype_override c) (cache_dir c) (dict_pop (tiles c) i)
                  (store_upd (store c) t close_tile) (hits c) (misses c),
                CFor keys samples, true,
                [(t, match refs_at c t with Some n => n | None => 0 end)])
      | None => None
      end
  | CEnd => None
  end.

Fixpoint set_nth {A : Type} (l : list A) (n : nat) (x : A) : list A :=
  match l, n with
  | [], _ => []
  | _ :: l', O => x :: l'
  | y :: l', S n' => y :: set_nth l' n' x
  end.

(** Thread [i] takes its next step. *)
Definition step (w : world) (i : nat) : option world :=
  match nth_error (w_threads w) i with
  | Some (InGetTile who built pc) =>
      match gt_step (w_locked w) built (w_tc w) pc with
      | Some (c, GtReturn t) =>
          let th := match who with Bare => Finished t | Bumping d => Bump t d end in
          Some (mkWorld c (w_locked w) (set_nth (w_threads w) i th) (w_evicted w))
      | Some (c, GtRaise e) =>
          Some (mkWorld c (w_locked w) (set_nth (w_threads w) i (Raised e)) (w_evicted w))
      | Some (c, pc') =>
          Some (mkWorld c (w_locked w) (set_nth (w_threads w) i (InGetTile who built pc'))
                  (w_evicted w))
      | None => None
      end
  | Some (Bump t d) =>
      Some (mkWorld (bump_refs (w_tc w) t d) (w_locked w)
              (set_nth (w_threads w) i (Finished t)) (w_evicted w))
  | Some (Cleaner pc) =>
      match clean_step (w_tc w) pc with
      | Some (c, pc', l, ev) =>
          Some (mkWorld c l (set_nth (w_threads w) i (Cleaner pc')) (w_evicted w ++ ev))
      | None => None
      end
  | Some (Finished _) | Some (Raised _) | None => None
  end.

(** A schedule names the thread that takes each successive step; it runs
    only if every step it asks for is one the thread can take. *)
Fixpoint run_schedule (w : world) (sched : list nat) : option world :=
  match sched with
  | [] => Some w
  | i :: sched' =>
      match step w i with
      | Some w' => run_schedule w' sched'
      | None => None
      end
  end.

Definition start (c : TileCacher) (ths : list thread) : world := mkWorld c false ths [].

(** The tile a finished thread obtained. *)
Definition obtained (w : world) (i : nat) : option addr :=
  match nth_error (w_threads w) i with
  | Some (Finished t) => Some t
  | _ => None
  end.

End Threads.

(** ** The naming convention in the words of the specification

    A second classifier, written from the specification and not from the
    source: the file name (the path after its last slash) is
    <digits><sep><digits><sep><maptype><zoom>.dds with nothing after the
    extension, the map type being the run of non-digits before the zoom
    digits and different from the reserved token ZL. *)

Fixpoint span (p : ascii -> bool) (s : str) : str * str :=
  match s with
  | x :: s' => if p x then let '(a, b) := span p s' in (x :: a, b) else ([], s)
  | [] => ([], [])
  end.

Definition is_sep (c : ascii) : bool := Ascii.eqb c "-" || Ascii.eqb c "_".

Definition nonempty (s : str) : bool := negb (posixpath.is_empty s).

Definition convention_name (f : str) : option (str * str * str * str) :=
  let '(row, r1) := span is_digit f in
  match r1 with
  | s1 :: r2 =>
      let '(col, r3) := span is_digit r2 in
      match r3 with
      | s2 :: r4 =>
          let '(maptype, r5) := span (fun c => negb (is_digit c)) r4 in
          let '(zoom, r6) := span is_digit r5 in
          if nonempty row && is_sep s1 && nonempty col && is_sep s2
             && negb (str_eqb maptype (lit "ZL")) && nonempty zoom
             && str_eqb r6 (lit ".dds")
          then Some (row, col, maptype, zoom)
          else None
      | [] => None
      end
  | [] => None
  end.

Definition basename (path : str) : str := last (posixpath.str_split path) [].

Definition convention_classify (path : str) : option (str * str * str * str) :=
  convention_name (basename path).

(** ** Notions used in the statements *)

Import Threads.

Import posixpath.

(** Runs of digits, runs of non-digits, strings without a given character. *)
Definition digits (s : str) : Prop := Forall (fun c => is_digit c = true) s.

Definition nondigits (s : str) : Prop := Forall (fun c => is_digit c = false) s.

Definition no_char (x : ascii) (s : str) : Prop := Forall (fun c => Ascii.eqb c x = false) s.

(** A repetition of class [p] cannot go on into [rest]. *)
Definition stops (p : ascii -> bool) (rest : str) : Prop :=
  match rest with [] => True | c :: _ => p c = false end.

(** A directory path none of whose slashes is followed by a digit: no
    component after the first has a name that begins with a digit. *)
Fixpoint plain_dirs (p : str) : bool :=
  match p with
  | [] => true
  | c :: p' =>
      (if Ascii.eqb c "/" then match p' with d :: _ => negb (is_digit d) | [] => true end
       else true)
      && plain_dirs p'
  end.

(** The form of every path the pattern can match: after some slash, a run
    of digits, a separator, a run of digits, a separator, a run of
    non-digits that does not begin with ZL, a run of digits, one character
    that is no newline, the letters dds, and then anything. *)
Definition recognizable (path : str) : Prop :=
  exists prefix row col maptype zoom s1 s2 x rest,
    digits row /\ row <> [] /\ digits col /\ col <> []
    /\ nondigits maptype /\ startswith maptype (lit "ZL") = false
    /\ digits zoom /\ zoom <> []
    /\ is_sep s1 = true /\ is_sep s2 = true
    /\ no_char newline prefix /\ Ascii.eqb x newline = false
    /\ path = prefix ++ "/"%char :: row ++ s1 :: col ++ s2 :: maptype ++ zoom
                ++ x :: lit "dds" ++ rest.

(** Every address the dictionary holds has been allocated. *)
Definition cache_wf (c : TileCacher) : Prop :=
  forall k a, In (k, a) (tiles c) -> (a < List.length (store c))%nat.

Definition empty_cache (override : option str) (dir : str) : TileCacher :=
  mkTileCacher override dir [] [] 0 0.

Definition sample_key : str := tile_idx 24832 12416 (lit "BI") 16.

(** A cache holding one tile, key [sample_key], with reference count [n]. *)
Definition one_tile_cache (n : Z) : TileCacher :=
  mkTileCacher None (lit ".cache") [(sample_key, O)]
    [mkTile 12416 24832 (lit "BI") 16 (lit ".cache") n false] 0 0.

(** What serving one open, read or release of a virtual path does to the
    count of its identity: +1, 0 and -1. *)
Definition count_change (r : request) : Z :=
  match r with
  | Open _ _ => 1
  | Release _ _ => -1
  | _ => 0
  end.

Definition is_open_read_release (r : request) : bool :=
  match r with
  | Open _ _ | Read _ _ _ _ | Release _ _ => true
  | _ => false
  end.

(** Each release of a sequence closes an open of the sequence that is still
    open, and none stays open at the end; reads may come anywhere.
    [depth] opens are outstanding at the start. *)
Fixpoint paired (depth : nat) (rs : list request) : bool :=
  match rs with
  | [] => (depth =? 0)%nat
  | Open _ _ :: rs' => paired (S depth) rs'
  | Release _ _ :: rs' => match depth with O => false | S d => paired d rs' end
  | Read _ _ _ _ :: rs' => paired depth rs'
  | _ :: _ => false
  end.

(** Every request of the sequence names a virtual path of identity [idx]. *)
Definition on_identity (c : TileCacher) (idx : str) (rs : list request) : Prop :=
  Forall (fun r => exists p, request_paths r = [p] /\ path_key c p = Some idx) rs.

(** A host whose tile provider does not fail: the constructor returns
    whenever it is called. *)
Definition reliable {S : Type} (h : handler S) : Prop :=
  forall s col row map_type zoom dir,
    fst (h unit (getortho_Tile col row map_type zoom dir) s) = inr tt.

(** The host on which nothing exists: every call fails with ENOENT, the
    constructor of the tile provider included. *)
Definition absent_host : handler unit := fun X _ s => (inl ENOENT, s).

Definition sample_path : str := lit "/24832_12416_BI16.dds".

Definition fresh_mount : AutoOrtho :=
  mkAutoOrtho (lit "/scenery") 0 0 (empty_cache None (lit ".cache")).

Definition sample_session : list request :=
  [ Open sample_path 0; Read sample_path 128 0 0; Open sample_path 0;
    Release sample_path 0; Read sample_path 1000 100000 0; Release sample_path 0 ].


Definition closed_at (c : TileCacher) (a : addr) : Prop :=
  option_map closed (deref (store c) a) = Some true.

Definition same_refs (c c' : TileCacher) : Prop := forall a, refs_at c' a = refs_at c a.

(** Three tiles: the first and the third open once, the second idle. *)
Definition three_tiles : TileCacher :=
  mkTileCacher None (lit ".cache")
    [(tile_idx 1 7 (lit "BI") 16, 0%nat); (tile_idx 2 7 (lit "BI") 16, 1%nat);
     (tile_idx 3 7 (lit "BI") 16, 2%nat)]
    [mkTile 7 1 (lit "BI") 16 (lit ".cache") 1 false;
     mkTile 7 2 (lit "BI") 16 (lit ".cache") 0 false;
     mkTile 7 3 (lit "BI") 16 (lit ".cache") 1 false] 0 3.

(** A call of [_get_tile] followed step by step with no other thread
    running. *)
Fixpoint gt_run (fuel : nat) (built : errno + unit) (c : TileCacher) (pc : gt_pc)
  : option ((errno + addr) * TileCacher) :=
  match pc with
  | GtReturn t => Some (inr t, c)
  | GtRaise e => Some (inl e, c)
  | _ =>
      match fuel with
      | O => None
      | Datatypes.S fuel' =>
          match gt_step false built c pc with
          | Some (c', pc') => gt_run fuel' built c' pc'
          | None => None
          end
      end
  end.

(** Two calls for one identity; the constructor succeeds for both. *)
Definition two_calls : list thread :=
  [ InGetTile Bare (inr tt) (GtLookup 24832 12416 (lit "BI") 16);
    InGetTile Bare (inr tt) (GtLookup 24832 12416 (lit "BI") 16) ].

(** The host on which no file exists and the tile provider works: its
    constructor succeeds and a tile reads as no bytes. *)
Definition provider_host : handler unit :=
  fun X c s =>
    match c in extcall X return (errno + X) * unit with
    | getortho_Tile _ _ _ _ _ => (inr tt, s)
    | read_dds_bytes _ _ _ => (inr [], s)
    | _ => (inl ENOENT, s)
    end.

(** The host on which the file of every name can be opened for update,
    truncated and written; it has nothing else. *)
Definition writable_host : handler unit :=
  fun X c s =>
    match c in extcall X return (errno + X) * unit with
    | open_rplus _ => (inr 3, s)
    | file_truncate _ n => (inr n, s)
    | file_close _ => (inr tt, s)
    | os_lseek _ o => (inr o, s)
    | os_write _ buf => (inr (Z.of_nat (List.length buf)), s)
    | _ => (inl ENOENT, s)
    end.

(** A cache of [n] idle tiles, rows 0 to n-1 in the order of insertion,
    built by [n] calls of [_get_tile]. *)
Definition prefill (n : nat) : TileCacher :=
  fold_left
    (fun c i => snd (result (run provider_host (_get_tile c (Z.of_nat i) 7 (lit "BI") 16) tt)))
    (seq 0 n) (empty_cache None (lit ".cache")).

(** Two opens and two releases of the sample tile. *)
Definition two_opens_two_releases : list thread :=
  [ InGetTile (Bumping 1) (inr tt) (GtLookup 24832 12416 (lit "BI") 16);
    InGetTile (Bumping 1) (inr tt) (GtLookup 24832 12416 (lit "BI") 16);
    InGetTile (Bumping (-1)) (inr tt) (GtLookup 24832 12416 (lit "BI") 16);
    InGetTile (Bumping (-1)) (inr tt) (GtLookup 24832 12416 (lit "BI") 16) ].

(** A call of [_get_tile] and an [open], both for the sample tile. *)
Definition getter_and_opener : list thread :=
  [ InGetTile Bare (inr tt) (GtLookup 24832 12416 (lit "BI") 16);
    InGetTile (Bumping 1) (inr tt) (GtLookup 24832 12416 (lit "BI") 16) ].

Definition three_GiB : Z := 3 * 1024 * 1024 * 1024.

(** An [open] of the oldest tile, and [clean] sampling 3 GiB. *)
Definition opener_and_cleaner : list thread :=
  [ InGetTile (Bumping 1) (inr tt) (GtLookup 0 7 (lit "BI") 16);
    Cleaner (CWhile three_GiB []) ].








(** The dictionary is a map onto distinct allocated tiles: no key twice, no
    tile under two keys, every address allocated. *)
Definition cache_inv (c : TileCacher) : Prop :=
  cache_wf c /\ NoDup (dict_keys (tiles c)) /\ NoDup (map snd (tiles c)).

(** What happens to a mounted filesystem between calls: a request is served
    or [clean] runs one pass. *)
Inductive event : Type :=
| Served (r : request)
| Cleaned.

Fixpoint run_events {S : Type} (cwd : str) (h : handler S) (s : S) (ao : AutoOrtho)
    (es : list event) : AutoOrtho * S :=
  match es with
  | [] => (ao, s)
  | Served r :: es' => let '(ao', s') := after cwd h s ao r in run_events cwd h s' ao' es'
  | Cleaned :: es' => run_events cwd h s (with_tc ao (clean_pass (tc ao))) es'
  end.

(** [n] calls of [_get_tile] with the same arguments, one after the other
    on host [h]: what each returned, in order, and the cache at the end. *)
Fixpoint repeat_get_tile {S : Type} (h : handler S) (s : S) (n : nat) (c : TileCacher)
    (row col : Z) (m : str) (zoom : Z) : list (errno + addr) * TileCacher :=
  match n with
  | O => ([], c)
  | Datatypes.S n' =>
      let out := run h (_get_tile c row col m zoom) s in
      let '(rs, c2) := repeat_get_tile h (host out) n' (snd (result out)) row col m zoom in
      (fst (result out) :: rs, c2)
  end.




(** * Properties *)

(** ** The classifier *)

Section StarLoop.

Variable R : Type.
Variable p : ascii -> bool.
Variable k : str -> mstate -> option R.

(** A repetition that crosses [w] and then succeeds succeeds. *)
Lemma star_loop_app_some (w rest : str) (g : R) :
  forall m, Forall (fun c => p c = true) w ->
  star_loop p k rest (eats w m) = Some g ->
  star_loop p k (w ++ rest) m = Some g.
Proof.
  induction w as [|c w IH]; intros m Hw Hk; simpl in *; [assumption|].
  inversion Hw as [|? ? Hc Hw']; subst. rewrite Hc.
  now rewrite (IH (eat c m) Hw' Hk).
Qed.

(** Where the continuation fails at every later position, the repetition
    matches nothing. *)
Lemma star_loop_first (inp : str) :
  forall m,
  (forall a b m', inp = a ++ b -> a <> [] -> k b m' = None) ->
  star_loop p k inp m = k inp m.
Proof.
  induction inp as [|x inp IH]; intros m Hlater; simpl; [reflexivity|].
  destruct (p x); [|reflexivity].
  rewrite IH.
  - rewrite (Hlater [x] inp (eat x m)); [reflexivity|reflexivity|discriminate].
  - intros a b m' -> Ha. apply (Hlater (x :: a) b m'); [reflexivity|discriminate].
Qed.

(** Where the continuation fails at every position, so does the
    repetition. *)
Lemma star_loop_none (inp : str) :
  forall m,
  (forall a b, inp = a ++ b -> k b (eats a m) = None) ->
  star_loop p k inp m = None.
Proof.
  induction inp as [|x inp IH]; intros m Hall; simpl.
  - apply (Hall [] []). reflexivity.
  - rewrite IH.
    + destruct (p x); apply (Hall [] (x :: inp)); reflexivity.
    + intros a b ->. apply (Hall (x :: a) b). reflexivity.
Qed.

(** A repetition over exactly [w]: the next character stops it and the
    continuation fails wherever part of [w] is given back. *)
Lemma star_loop_exact (w rest : str) :
  forall m, Forall (fun c => p c = true) w ->
  match rest with [] => True | c :: _ => p c = false end ->
  (forall u c v m', w = u ++ c :: v -> k (c :: v ++ rest) m' = None) ->
  star_loop p k (w ++ rest) m = k rest (eats w m).
Proof.
  induction w as [|c w IH]; intros m Hw Hstop Hback; simpl.
  - destruct rest as [|c rest]; [reflexivity|]. simpl. now rewrite Hstop.
  - inversion Hw as [|? ? Hc Hw']; subst. rewrite Hc.
    rewrite (IH (eat c m) Hw' Hstop).
    + destruct (k rest (eats w (eat c m))) eqn:E; [reflexivity|].
      apply (Hback [] c w m). reflexivity.
    + intros u c' v m' ->. apply (Hback (c :: u) c' v m'). reflexivity.
Qed.

End StarLoop.

Lemma eats_open (w x : str) (c : list str) :
  eats w {| caps := c; cur := Some x |} = {| caps := c; cur := Some (x ++ w) |}.
Proof.
  revert x. induction w as [|a w IH]; intros x; simpl.
  - now rewrite app_nil_r.
  - unfold eat at 1. simpl. rewrite IH. now rewrite <- app_assoc.
Qed.

Lemma eats_shut (w : str) (c : list str) :
  eats w {| caps := c; cur := None |} = {| caps := c; cur := None |}.
Proof. induction w as [|a w IH]; simpl; [reflexivity|]. apply IH. Qed.

Lemma sep_not_digit (c : ascii) : is_sep c = true -> is_digit c = false.
Proof.
  unfold is_sep. intros H. apply orb_true_iff in H.
  destruct H as [H|H]; apply Ascii.eqb_eq in H; subst; reflexivity.
Qed.

Lemma sep_accepts (c : ascii) : accepts sep_class c = is_sep c.
Proof. unfold is_sep. simpl. now rewrite orb_false_r. Qed.

Lemma digit_not_sep (c : ascii) : is_digit c = true -> is_sep c = false.
Proof.
  intros H. destruct (is_sep c) eqn:E; [|reflexivity].
  apply sep_not_digit in E. congruence.
Qed.

Lemma digit_is (c : ascii) (x : ascii) : is_digit c = true -> is_digit x = false -> Ascii.eqb c x = false.
Proof.
  intros H1 H2. destruct (Ascii.eqb c x) eqn:E; [|reflexivity].
  apply Ascii.eqb_eq in E. congruence.
Qed.

(** A group around a [+] repetition that must match exactly [x :: w]. *)
Lemma exec_group_plus (cls : cclass) (r' : regex) (x : ascii) (w rest : str) (c : list str) :
  accepts cls x = true ->
  Forall (fun y => accepts cls y = true) w ->
  stops (accepts cls) rest ->
  (forall y v m', accepts cls y = true -> Forall (fun y => accepts cls y = true) v ->
     exec (GClose :: r') (y :: v ++ rest) m' = None) ->
  exec (GOpen :: Plus cls :: GClose :: r') (x :: w ++ rest) {| caps := c; cur := None |}
  = exec r' rest {| caps := c ++ [x :: w]; cur := None |}.
Proof.
  intros Hx Hw Hstop Hback.
  change (exec (GOpen :: Plus cls :: GClose :: r') (x :: w ++ rest) {| caps := c; cur := None |})
    with (if accepts cls x
          then star_loop (accepts cls) (exec (GClose :: r')) (w ++ rest)
                 (eat x (gopen {| caps := c; cur := None |}))
          else None).
  rewrite Hx. rewrite star_loop_exact; try assumption.
  - unfold gopen, eat. simpl. rewrite eats_open. reflexivity.
  - intros u y v m' ->. apply Forall_app in Hw. destruct Hw as [_ Hw].
    inversion Hw; subst. now apply Hback.
Qed.

(** A group around a guarded [*] repetition that must match exactly [w]. *)
Lemma exec_group_star (cls : cclass) (z : str) (r' : regex) (w rest : str) (c : list str) :
  startswith (w ++ rest) z = false ->
  Forall (fun y => accepts cls y = true) w ->
  stops (accepts cls) rest ->
  (forall y v m', accepts cls y = true -> exec (GClose :: r') (y :: v) m' = None) ->
  exec (GOpen :: NotAhead z :: Star cls :: GClose :: r') (w ++ rest) {| caps := c; cur := None |}
  = exec r' rest {| caps := c ++ [w]; cur := None |}.
Proof.
  intros Hz Hw Hstop Hback.
  change (exec (GOpen :: NotAhead z :: Star cls :: GClose :: r') (w ++ rest)
            {| caps := c; cur := None |})
    with (if startswith (w ++ rest) z then None
          else star_loop (accepts cls) (exec (GClose :: r')) (w ++ rest)
                 (gopen {| caps := c; cur := None |})).
  rewrite Hz. rewrite star_loop_exact; try assumption.
  - unfold gopen. simpl. rewrite eats_open. reflexivity.
  - intros u y v m' ->. apply Forall_app in Hw. destruct Hw as [_ Hw].
    inversion Hw; subst. now apply Hback.
Qed.

Lemma startswith_nil (s : str) : startswith s [] = true.
Proof. now destruct s. Qed.

Lemma startswith_ZL (maptype zoom rest : str) :
  startswith maptype (lit "ZL") = false ->
  nondigits maptype -> digits zoom -> zoom <> [] ->
  startswith (maptype ++ zoom ++ rest) (lit "ZL") = false.
Proof.
  intros HZ Hm Hz Hne.
  destruct zoom as [|d zoom]; [congruence|]. inversion Hz as [|? ? Hd _]; subst.
  destruct maptype as [|a [|b maptype]]; simpl in *.
  - now rewrite (digit_is d "Z" Hd eq_refl).
  - rewrite (digit_is d "L" Hd eq_refl). now rewrite andb_false_r.
  - rewrite startswith_nil in *. exact HZ.
Qed.

(** The first two groups and their separators. *)
Lemma exec_dds_rowcol (row col rest : str) (s1 s2 : ascii) (c : list str) :
  digits row -> row <> [] -> is_sep s1 = true ->
  digits col -> col <> [] -> is_sep s2 = true ->
  exec dds_tail (row ++ s1 :: col ++ s2 :: rest) {| caps := c; cur := None |}
  = exec [ GOpen; NotAhead (lit "ZL"); Star NonDigit; GClose;
           GOpen; Plus Digit; GClose;
           One Dot; One (Chr "d"); One (Chr "d"); One (Chr "s") ]
      rest {| caps := c ++ [row; col]; cur := None |}.
Proof.
  intros Hrow Hrow0 Hs1 Hcol Hcol0 Hs2.
  assert (Hsepfail : forall r' y v m', is_digit y = true ->
            exec (GClose :: One sep_class :: r') (y :: v) m' = None).
  { intros r' y v m' Hy. simpl. rewrite orb_false_r.
    change (Ascii.eqb y "-" || Ascii.eqb y "_") with (is_sep y).
    now rewrite (digit_not_sep y Hy). }
  unfold dds_tail.
  destruct row as [|r0 row]; [congruence|]. inversion Hrow; subst.
  rewrite <- app_comm_cons.
  rewrite exec_group_plus; try assumption.
  2:{ simpl. now apply sep_not_digit. }
  2:{ intros y v m' Hy _. now apply Hsepfail. }
  change (exec (One sep_class :: ?r) (s1 :: ?i) ?m)
    with (if accepts sep_class s1 then exec r i (eat s1 m) else None).
  rewrite sep_accepts, Hs1. unfold eat; simpl caps; simpl cur; simpl option_map.
  destruct col as [|c0 col]; [congruence|]. inversion Hcol; subst.
  rewrite <- app_comm_cons.
  rewrite exec_group_plus; try assumption.
  2:{ simpl. now apply sep_not_digit. }
  2:{ intros y v m' Hy _. now apply Hsepfail. }
  change (exec (One sep_class :: ?r) (s2 :: ?i) ?m)
    with (if accepts sep_class s2 then exec r i (eat s2 m) else None).
  rewrite sep_accepts, Hs2. unfold eat; simpl caps; simpl cur; simpl option_map.
  rewrite <- !app_assoc. reflexivity.
Qed.

(** The part of the pattern after the slash, on a name of the convention. *)
Lemma exec_dds_tail (row col maptype zoom : str) (s1 s2 : ascii) (c : list str) :
  digits row -> row <> [] -> is_sep s1 = true ->
  digits col -> col <> [] -> is_sep s2 = true ->
  nondigits maptype -> startswith maptype (lit "ZL") = false ->
  digits zoom -> zoom <> [] ->
  exec dds_tail (row ++ s1 :: col ++ s2 :: maptype ++ zoom ++ lit ".dds")
    {| caps := c; cur := None |}
  = Some (c ++ [row; col; maptype; zoom]).
Proof.
  intros Hrow Hrow0 Hs1 Hcol Hcol0 Hs2 Hm HZL Hzoom Hzoom0.
  rewrite exec_dds_rowcol; try assumption.
  destruct zoom as [|z0 zoom]; [congruence|]. inversion Hzoom; subst.
  rewrite exec_group_star.
  2:{ apply startswith_ZL; assumption. }
  2:{ eapply Forall_impl; [|exact Hm]. intros a Ha. simpl. now rewrite Ha. }
  2:{ simpl. match goal with H : is_digit z0 = true |- _ => now rewrite H end. }
  2:{ intros y v m' Hy. simpl in *. apply negb_true_iff in Hy. now rewrite Hy. }
  rewrite <- app_comm_cons.
  rewrite exec_group_plus; try assumption.
  2:{ reflexivity. }
  2:{ intros y v m' Hy Hv. simpl. simpl in Hy. rewrite (digit_is y newline Hy eq_refl). simpl.
      destruct v as [|v0 v]; simpl; [reflexivity|].
      inversion Hv; subst. simpl in *.
      match goal with H : is_digit v0 = true |- _ => now rewrite (digit_is v0 "d" H eq_refl) end. }
  simpl. rewrite <- !app_assoc. reflexivity.
Qed.

Lemma startswith_app (s w rest : str) : startswith s w = true -> startswith (s ++ rest) w = true.
Proof.
  revert w. induction s as [|x s IH]; intros [|c w] H; simpl in *;
    try reflexivity; try discriminate; try apply startswith_nil.
  apply andb_true_iff in H. destruct H as [H1 H2]. now rewrite H1, (IH w H2).
Qed.

(** A map type that begins with ZL stops the match at the look-ahead. *)
Lemma exec_dds_tail_ZL (row col maptype rest : str) (s1 s2 : ascii) (c : list str) :
  digits row -> row <> [] -> is_sep s1 = true ->
  digits col -> col <> [] -> is_sep s2 = true ->
  startswith maptype (lit "ZL") = true ->
  exec dds_tail (row ++ s1 :: col ++ s2 :: maptype ++ rest) {| caps := c; cur := None |} = None.
Proof.
  intros Hrow Hrow0 Hs1 Hcol Hcol0 Hs2 HZL.
  rewrite exec_dds_rowcol; try assumption.
  change (exec (GOpen :: NotAhead ?z :: ?r) ?i ?m)
    with (if startswith i z then None else exec r i (gopen m)).
  now rewrite (startswith_app _ _ rest HZL).
Qed.

Lemma no_char_suffix (x : ascii) (a b : str) : no_char x (a ++ b) -> no_char x b.
Proof. intros H. apply Forall_app in H. tauto. Qed.

Lemma digits_no_slash (s : str) : digits s -> no_char "/" s.
Proof. apply Forall_impl. intros c Hc. now apply digit_is. Qed.

Lemma sep_no_slash (c : ascii) : is_sep c = true -> Ascii.eqb c "/" = false.
Proof.
  unfold is_sep. intros H. apply orb_true_iff in H.
  destruct H as [H|H]; apply Ascii.eqb_eq in H; subst; reflexivity.
Qed.

Lemma name_no_slash (row col maptype tl : str) (s1 s2 : ascii) :
  digits row -> is_sep s1 = true -> digits col -> is_sep s2 = true ->
  no_char "/" maptype -> no_char "/" tl ->
  no_char "/" (row ++ s1 :: col ++ s2 :: maptype ++ tl).
Proof.
  intros Hrow Hs1 Hcol Hs2 Hm Ht. unfold no_char.
  apply Forall_app; split; [now apply digits_no_slash|].
  constructor; [now apply sep_no_slash|].
  apply Forall_app; split; [now apply digits_no_slash|].
  constructor; [now apply sep_no_slash|].
  apply Forall_app; split; assumption.
Qed.

(** The continuation of the leading [.*] fails wherever no slash stands. *)
Lemma slash_needed (r : regex) (b : str) (m : mstate) :
  no_char "/" b -> exec (One (Chr "/") :: r) b m = None.
Proof.
  intros H. destruct b as [|y b]; [reflexivity|]. inversion H; subst. simpl.
  match goal with E : Ascii.eqb y "/" = false |- _ => now rewrite E end.
Qed.

(** The pattern on paths other than names of the convention: the dot before
    the extension stands for any character, nothing anchors the end, and a
    zoom digit can be taken for that dot. *)
Example dds_match_any_char_for_dot :
  dds_match (lit "/1_2_BI16xdds") = Some (lit "1", lit "2", lit "BI", lit "16").
Proof. reflexivity. Qed.

Example dds_match_trailing_text :
  dds_match (lit "/1_2_BI16.dds.bak") = Some (lit "1", lit "2", lit "BI", lit "16").
Proof. reflexivity. Qed.

Example dds_match_digit_for_dot :
  dds_match (lit "/1_2_BI16dds") = Some (lit "1", lit "2", lit "BI", lit "1").
Proof. reflexivity. Qed.

Example dds_match_needs_slash : dds_match (lit "1_2_BI16.dds") = None.
Proof. reflexivity. Qed.

(** C4, as stated: the classifier recognizes a path exactly when its file
    name follows the convention with a map type different from ZL.  This
    fails: the look-ahead of the pattern rejects every map type that begins
    with ZL, so the name 1_2_ZLA16.dds, whose map type ZLA is not the
    reserved token, follows the convention and is not recognized. *)
Lemma dds_match_not_convention :
  ~ (forall path : str, dds_match path = convention_classify path).
Proof.
  intros H. specialize (H (lit "/1_2_ZLA16.dds")).
  vm_compute in H. discriminate H.
Qed.

(** A name of the convention, under any directory, is recognized and its
    four fields are extracted. *)
Lemma dds_match_accepts (prefix row col maptype zoom : str) (s1 s2 : ascii) :
  digits row -> row <> [] -> is_sep s1 = true ->
  digits col -> col <> [] -> is_sep s2 = true ->
  nondigits maptype -> no_char "/" maptype -> startswith maptype (lit "ZL") = false ->
  digits zoom -> zoom <> [] ->
  no_char newline prefix ->
  dds_match (prefix ++ "/"%char :: row ++ s1 :: col ++ s2 :: maptype ++ zoom ++ lit ".dds")
  = Some (row, col, maptype, zoom).
Proof.
  intros Hrow Hrow0 Hs1 Hcol Hcol0 Hs2 Hm Hmslash HZL Hzoom Hzoom0 Hprefix.
  assert (Htail : no_char "/" (row ++ s1 :: col ++ s2 :: maptype ++ zoom ++ lit ".dds")).
  { apply name_no_slash; try assumption.
    apply Forall_app; split; [now apply digits_no_slash|]. repeat constructor. }
  unfold dds_match, rmatch, dds_re.
  change (exec (Star Dot :: ?r) ?i ?m) with (star_loop (accepts Dot) (exec r) i m).
  rewrite (@star_loop_app_some _ (accepts Dot) _ prefix _ [row; col; maptype; zoom]);
    [reflexivity| |].
  - eapply Forall_impl; [|exact Hprefix]. intros a Ha. simpl. now rewrite Ha.
  - rewrite eats_shut. rewrite star_loop_first.
    + change (exec (One (Chr "/") :: ?r) ("/"%char :: ?i) ?m) with (exec r i (eat "/" m)).
      unfold eat. simpl caps. simpl cur. simpl option_map.
      now rewrite exec_dds_tail.
    + intros a b m' E Ha. apply slash_needed.
      destruct a as [|x a]; [congruence|]. injection E as _ E.
      apply (@no_char_suffix "/" a). rewrite <- E. exact Htail.
Qed.

(** Where a slash stands in  prefix/tail : at the joint, or within the
    prefix and then before a character that is no digit. *)
Lemma slash_in_plain_dirs (prefix tail : str) :
  plain_dirs prefix = true -> no_char "/" tail ->
  forall a b, prefix ++ "/"%char :: tail = a ++ "/"%char :: b ->
  (a = prefix /\ b = tail) \/ stops is_digit b.
Proof.
  intros Hp Ht. induction prefix as [|c p IH]; intros a b E.
  - destruct a as [|z a]; simpl in E.
    + inversion E. auto.
    + inversion E; subst. exfalso.
      assert (H : no_char "/" (a ++ "/"%char :: b)) by exact Ht.
      apply no_char_suffix in H. inversion H; subst. discriminate.
  - simpl in Hp. apply andb_true_iff in Hp. destruct Hp as [H1 H2].
    destruct a as [|z a]; simpl in E.
    + inversion E; subst. right. simpl in H1.
      destruct p as [|d p]; simpl; [reflexivity|]. now apply negb_true_iff.
    + inversion E; subst. destruct (IH H2 a b ltac:(assumption)) as [[-> ->]|H]; auto.
Qed.

(** After the slash the pattern wants a digit. *)
Lemma exec_dds_tail_no_digit (b : str) (m : mstate) :
  stops is_digit b -> exec dds_tail b m = None.
Proof.
  intros H. unfold dds_tail. destruct b as [|d b]; simpl; [reflexivity|].
  simpl in H. now rewrite H.
Qed.

(** A name whose map type begins with ZL is not recognized under any
    directory none of whose components after the first begins with a
    digit. *)
Lemma dds_match_rejects_ZL (prefix row col maptype zoom : str) (s1 s2 : ascii) :
  digits row -> row <> [] -> is_sep s1 = true ->
  digits col -> col <> [] -> is_sep s2 = true ->
  no_char "/" maptype -> startswith maptype (lit "ZL") = true ->
  digits zoom ->
  plain_dirs prefix = true ->
  dds_match (prefix ++ "/"%char :: row ++ s1 :: col ++ s2 :: maptype ++ zoom ++ lit ".dds")
  = None.
Proof.
  intros Hrow Hrow0 Hs1 Hcol Hcol0 Hs2 Hmslash HZL Hzoom Hprefix.
  assert (Htail : no_char "/" (row ++ s1 :: col ++ s2 :: maptype ++ zoom ++ lit ".dds")).
  { apply name_no_slash; try assumption.
    apply Forall_app; split; [now apply digits_no_slash|]. repeat constructor. }
  unfold dds_match, rmatch, dds_re.
  change (exec (Star Dot :: ?r) ?i ?m) with (star_loop (accepts Dot) (exec r) i m).
  rewrite star_loop_none; [reflexivity|].
  intros a b E. rewrite eats_shut.
  destruct b as [|y b]; [reflexivity|].
  destruct (Ascii.eqb y "/") eqn:Ey.
  - apply Ascii.eqb_eq in Ey. subst y.
    change (exec (One (Chr "/") :: ?r) ("/"%char :: ?i) ?m) with (exec r i (eat "/" m)).
    destruct (slash_in_plain_dirs prefix Hprefix Htail a b E) as [[-> ->]|Hb].
    + unfold eat. simpl caps. simpl cur. simpl option_map.
      now apply exec_dds_tail_ZL.
    + now apply exec_dds_tail_no_digit.
  - simpl. now rewrite Ey.
Qed.

Lemma star_loop_some_inv {R : Type} (p : ascii -> bool) (k : str -> mstate -> option R)
    (inp : str) (g : R) :
  forall m, star_loop p k inp m = Some g ->
  exists a b, inp = a ++ b /\ Forall (fun c => p c = true) a /\ k b (eats a m) = Some g.
Proof.
  induction inp as [|x inp IH]; intros m H; simpl in H.
  - exists [], []. auto.
  - destruct (p x) eqn:Hx.
    + destruct (star_loop p k inp (eat x m)) as [g'|] eqn:E.
      * injection H as ->. destruct (IH _ E) as (a & b & -> & Ha & Hk).
        exists (x :: a), b. auto.
      * exists [], (x :: inp). auto.
    + exists [], (x :: inp). auto.
Qed.

Lemma exec_one_inv (cls : cclass) (r' : regex) (inp : str) (c g : list str) :
  exec (One cls :: r') inp {| caps := c; cur := None |} = Some g ->
  exists x rest, inp = x :: rest /\ accepts cls x = true
                 /\ exec r' rest {| caps := c; cur := None |} = Some g.
Proof.
  destruct inp as [|x rest]; simpl; [discriminate|].
  destruct (accepts cls x) eqn:Hx; [|discriminate].
  intros H. exists x, rest. auto.
Qed.

Lemma exec_group_plus_inv (cls : cclass) (r' : regex) (inp : str) (c g : list str) :
  exec (GOpen :: Plus cls :: GClose :: r') inp {| caps := c; cur := None |} = Some g ->
  exists x w rest, inp = x :: w ++ rest /\ accepts cls x = true
    /\ Forall (fun y => accepts cls y = true) w
    /\ exec r' rest {| caps := c ++ [x :: w]; cur := None |} = Some g.
Proof.
  destruct inp as [|x inp]; simpl; [discriminate|].
  destruct (accepts cls x) eqn:Hx; [|discriminate].
  intros H. apply star_loop_some_inv in H. destruct H as (w & rest & -> & Hw & Hk).
  exists x, w, rest. repeat split; auto.
  unfold gopen, eat in Hk. simpl in Hk. rewrite eats_open in Hk. exact Hk.
Qed.

Lemma exec_group_star_inv (cls : cclass) (z : str) (r' : regex) (inp : str) (c g : list str) :
  exec (GOpen :: NotAhead z :: Star cls :: GClose :: r') inp {| caps := c; cur := None |}
    = Some g ->
  startswith inp z = false
  /\ exists w rest, inp = w ++ rest
       /\ Forall (fun y => accepts cls y = true) w
       /\ exec r' rest {| caps := c ++ [w]; cur := None |} = Some g.
Proof.
  simpl. destruct (startswith inp z) eqn:Hz; [discriminate|].
  intros H. split; [reflexivity|].
  apply star_loop_some_inv in H. destruct H as (w & rest & -> & Hw & Hk).
  exists w, rest. repeat split; auto.
  unfold gopen in Hk. simpl in Hk. rewrite eats_open in Hk. exact Hk.
Qed.

Lemma startswith_app_false (s w rest : str) :
  startswith (s ++ rest) w = false -> startswith s w = false.
Proof.
  intros H. destruct (startswith s w) eqn:E; [|reflexivity].
  now rewrite (startswith_app s w rest E) in H.
Qed.

(** The shape of a recognized path, read off a successful match. *)
Lemma dds_match_shape (path row col maptype zoom : str) :
  dds_match path = Some (row, col, maptype, zoom) ->
  digits row /\ row <> [] /\ digits col /\ col <> []
  /\ nondigits maptype /\ startswith maptype (lit "ZL") = false
  /\ digits zoom /\ zoom <> []
  /\ exists prefix s1 s2 x rest,
       is_sep s1 = true /\ is_sep s2 = true
       /\ no_char newline prefix /\ Ascii.eqb x newline = false
       /\ path = prefix ++ "/"%char :: row ++ s1 :: col ++ s2 :: maptype ++ zoom
                   ++ x :: lit "dds" ++ rest.
Proof.
  unfold dds_match. destruct (rmatch dds_re path) as [g|] eqn:E; [|discriminate].
  unfold rmatch, dds_re in E.
  change (exec (Star Dot :: ?r) ?i ?m) with (star_loop (accepts Dot) (exec r) i m) in E.
  apply star_loop_some_inv in E. destruct E as (prefix & b0 & -> & Hprefix & E).
  rewrite eats_shut in E.
  apply exec_one_inv in E. destruct E as (sl & b1 & -> & Hsl & E).
  apply Ascii.eqb_eq in Hsl. subst sl.
  unfold dds_tail in E.
  apply exec_group_plus_inv in E. destruct E as (r0 & rw & b2 & -> & Hr0 & Hrw & E).
  apply exec_one_inv in E. destruct E as (s1 & b3 & -> & Hs1 & E).
  apply exec_group_plus_inv in E. destruct E as (c0 & cw & b4 & -> & Hc0 & Hcw & E).
  apply exec_one_inv in E. destruct E as (s2 & b5 & -> & Hs2 & E).
  apply exec_group_star_inv in E. destruct E as (HZL & mt & b6 & -> & Hmt & E).
  apply exec_group_plus_inv in E. destruct E as (z0 & zw & b7 & -> & Hz0 & Hzw & E).
  apply exec_one_inv in E. destruct E as (x & b8 & -> & Hx & E).
  apply exec_one_inv in E. destruct E as (d1 & b9 & -> & Hd1 & E).
  apply exec_one_inv in E. destruct E as (d2 & b10 & -> & Hd2 & E).
  apply exec_one_inv in E. destruct E as (d3 & rest & -> & Hd3 & E).
  apply Ascii.eqb_eq in Hd1, Hd2, Hd3. subst d1 d2 d3.
  simpl in E. injection E as <-.
  intros [= <- <- <- <-].
  rewrite sep_accepts in Hs1, Hs2.
  split; [constructor; assumption|]. split; [discriminate|].
  split; [constructor; assumption|]. split; [discriminate|].
  split. { eapply Forall_impl; [|exact Hmt]. intros a Ha. simpl in Ha. now apply negb_true_iff. }
  split. { eapply startswith_app_false. exact HZL. }
  split; [constructor; assumption|]. split; [discriminate|].
  exists prefix, s1, s2, x, rest.
  split; [assumption|]. split; [assumption|].
  split. { eapply Forall_impl; [|exact Hprefix]. intros a Ha. simpl in Ha. now apply negb_true_iff. }
  split. { simpl in Hx. now apply negb_true_iff. }
  reflexivity.
Qed.

(** C4, amended.  A path  prefix/<row><sep><col><sep><maptype><zoom>.dds  whose
    row, column and zoom are non-empty runs of digits, whose separators are
    '-' or '_' and whose map type is a run of non-digit characters without a
    slash is recognized, with exactly (row, column, map type, zoom)
    extracted, when the map type does not begin with ZL and the prefix holds
    no newline; it is not recognized when the map type begins with ZL and no
    directory of the prefix after the first has a name that begins with a
    digit (as in /textures/1_2_ZL16.dds).  And every path that cannot be
    written as  prefix/<digits><sep><digits><sep><nondigits><digits>?dds...
    with the run of non-digits not beginning with ZL is answered with
    [None], as a value: the classifier is a total function. *)
Theorem dds_match_convention :
  (forall (prefix row col maptype zoom : str) (s1 s2 : ascii),
     digits row -> row <> [] -> is_sep s1 = true ->
     digits col -> col <> [] -> is_sep s2 = true ->
     nondigits maptype -> no_char "/" maptype ->
     digits zoom -> zoom <> [] ->
     let path := prefix ++ "/"%char :: row ++ s1 :: col ++ s2 :: maptype ++ zoom ++ lit ".dds" in
     (no_char newline prefix -> startswith maptype (lit "ZL") = false ->
        dds_match path = Some (row, col, maptype, zoom))
     /\ (plain_dirs prefix = true -> startswith maptype (lit "ZL") = true ->
        dds_match path = None))
  /\ (forall path : str, ~ recognizable path -> dds_match path = None).
Proof.
  split.
  - intros prefix row col maptype zoom s1 s2
           Hrow Hrow0 Hs1 Hcol Hcol0 Hs2 Hm Hmslash Hzoom Hzoom0 path. split.
    + intros Hprefix HZL. now apply dds_match_accepts.
    + intros Hprefix HZL. now apply dds_match_rejects_ZL.
  - intros path Hno.
    destruct (dds_match path) as [[[[row col] maptype] zoom]|] eqn:E; [|reflexivity].
    exfalso. apply Hno.
    destruct (@dds_match_shape path row col maptype zoom E)
      as (H1 & H2 & H3 & H4 & H5 & H6 & H7 & H8 & prefix & s1 & s2 & x & rest & H9 & H10 & H11
          & H12 & H13).
    exists prefix, row, col, maptype, zoom, s1, s2, x, rest. tauto.
Qed.

(** The amended statement at the tile name of the test suite, at names
    whose map type begins with ZL, at the root and below a directory, and
    at a path that holds no digit. *)
Lemma dds_match_convention_witness :
  dds_match (lit "/mnt/24832_12416_BI16.dds")
    = Some (lit "24832", lit "12416", lit "BI", lit "16")
  /\ dds_match (lit "/24832_12416_ZLA16.dds") = None
  /\ dds_match (lit "/textures/1_2_ZL16.dds") = None
  /\ dds_match (lit "/Earth nav data/apt.dat") = None.
Proof.
  destruct dds_match_convention as (Hname & Hother).
  split; [|split; [|split]].
  - apply (Hname (lit "/mnt") (lit "24832") (lit "12416") (lit "BI") (lit "16")
             "_"%char "_"%char);
      try reflexivity; try discriminate; repeat constructor.
  - apply (Hname [] (lit "24832") (lit "12416") (lit "ZLA") (lit "16") "_"%char "_"%char);
      try reflexivity; try discriminate; repeat constructor.
  - apply (Hname (lit "/textures") (lit "1") (lit "2") (lit "ZL") (lit "16") "_"%char "_"%char);
      try reflexivity; try discriminate; repeat constructor.
  - apply Hother.
    intros (prefix & row & col & maptype & zoom & s1 & s2 & x & rest
            & Hrow & Hrow0 & _ & _ & _ & _ & _ & _ & _ & _ & _ & _ & E).
    destruct row as [|d row]; [congruence|]. inversion Hrow as [|? ? Hd _]; subst.
    assert (Hin : In d (lit "/Earth nav data/apt.dat"))
      by (rewrite E; apply in_or_app; right; right; now left).
    simpl in Hin.
    repeat (destruct Hin as [<-|Hin]; [discriminate Hd|]). exact Hin.
Defined.

(** ** The cache: dictionary and store *)

Lemma str_eqb_refl (a : str) : str_eqb a a = true.
Proof. unfold str_eqb. destruct (list_eq_dec ascii_dec a a); congruence. Qed.

Lemma str_eqb_eq (a b : str) : str_eqb a b = true <-> a = b.
Proof. unfold str_eqb. destruct (list_eq_dec ascii_dec a b); split; congruence. Qed.

Lemma str_eqb_neq (a b : str) : str_eqb a b = false <-> a <> b.
Proof. unfold str_eqb. destruct (list_eq_dec ascii_dec a b); split; congruence. Qed.

Lemma dict_get_set_same (d : list (str * addr)) (k : str) (v : addr) :
  dict_get (dict_set d k v) k = Some v.
Proof.
  induction d as [|[k' v'] d IH]; simpl.
  - now rewrite str_eqb_refl.
  - destruct (str_eqb k' k) eqn:E; simpl; rewrite E; [reflexivity|exact IH].
Qed.

Lemma dict_get_in (d : list (str * addr)) (k : str) (v : addr) :
  dict_get d k = Some v -> In (k, v) d.
Proof.
  induction d as [|[k' v'] d IH]; simpl; [discriminate|].
  destruct (str_eqb k' k) eqn:E.
  - apply str_eqb_eq in E. intros [= ->]. left. congruence.
  - intros H. right. now apply IH.
Qed.

Lemma dict_set_in (d : list (str * addr)) (k k2 : str) (v v2 : addr) :
  In (k2, v2) (dict_set d k v) -> In (k2, v2) d \/ v2 = v.
Proof.
  induction d as [|[k' v'] d IH]; simpl.
  - intros [[= <- <-]|[]]. now right.
  - destruct (str_eqb k' k); simpl.
    + intros [[= <- <-]|H]; [now right|left; now right].
    + intros [H|H]; [left; now left|]. destruct (IH H); [left; now right|now right].
Qed.

Lemma deref_upd_same (st : list Tile) (a : addr) (f : Tile -> Tile) :
  deref (store_upd st a f) a = option_map f (deref st a).
Proof.
  revert a. induction st as [|t st IH]; intros [|a]; simpl; try reflexivity. apply IH.
Qed.

Lemma deref_upd_other (st : list Tile) (a b : addr) (f : Tile -> Tile) :
  a <> b -> deref (store_upd st a f) b = deref st b.
Proof.
  revert a b. induction st as [|t st IH]; intros [|a] [|b] Hne; simpl; try reflexivity.
  - congruence.
  - apply IH. congruence.
Qed.

Lemma store_upd_length (st : list Tile) (a : addr) (f : Tile -> Tile) :
  List.length (store_upd st a f) = List.length st.
Proof. revert a. induction st as [|t st IH]; intros [|a]; simpl; auto. Qed.

Lemma deref_fresh (st : list Tile) (t : Tile) : deref (st ++ [t]) (List.length st) = Some t.
Proof. unfold deref. rewrite nth_error_app2 by lia. now rewrite Nat.sub_diag. Qed.

Lemma deref_valid (st : list Tile) (a : addr) :
  (a < List.length st)%nat -> exists t, deref st a = Some t.
Proof.
  intros H. unfold deref. destruct (nth_error st a) eqn:E; [eauto|].
  apply nth_error_None in E. lia.
Qed.

Lemma empty_cache_wf (o : option str) (d : str) : cache_wf (empty_cache o d).
Proof. intros k a []. Qed.

(** ** Programs run on a host *)

Lemma run_replying {S V : Type} (h : handler S) (g : V -> reply) (p : op V) :
  forall s,
  snd (result (run h (replying g p) s)) = snd (result (run h p s))
  /\ touched (run h (replying g p) s) = touched (run h p s).
Proof.
  unfold replying. induction p as [[o a]|X c k IH]; intros s; simpl.
  - split; reflexivity.
  - destruct (h X c s) as [r s']. simpl. destruct (IH r s') as [H1 H2].
    split; [exact H1|now rewrite H2].
Qed.


(** [_get_tile] on a host: for a cached key nothing is asked of the host;
    for any other the constructor is called, and its answer decides between
    the new tile and the exception. *)
Lemma _get_tile_run {S : Type} (h : handler S) (s : S) (c : TileCacher) (row col : Z)
    (map_type : str) (zoom : Z) :
  run h (_get_tile c row col map_type zoom) s
  = match dict_get (tiles c) (tile_idx row col (effective_maptype c map_type) zoom) with
    | Some a => mkRan (inr a, if idle c a then count_hit c else c) s []
    | None =>
        mkRan
          (match fst (h unit (getortho_Tile col row (effective_maptype c map_type) zoom
                                (cache_dir c)) s) with
           | inl e => (inl e, count_miss c)
           | inr _ =>
               (inr (List.length (store c)),
                snd (create_tile (count_miss c)
                       (tile_idx row col (effective_maptype c map_type) zoom)
                       row col (effective_maptype c map_type) zoom))
           end)
          (snd (h unit (getortho_Tile col row (effective_maptype c map_type) zoom
                          (cache_dir c)) s))
          []
    end.
Proof.
  unfold _get_tile.
  destruct (dict_get (tiles c) (tile_idx row col (effective_maptype c map_type) zoom)) as [a|];
    [reflexivity|].
  simpl.
  destruct (h unit (getortho_Tile col row (effective_maptype c map_type) zoom (cache_dir c)) s)
    as [[e|u] s']; reflexivity.
Qed.

Lemma _get_tile_calls {S : Type} (h : handler S) (s : S) (c : TileCacher) (row col : Z)
    (map_type : str) (zoom : Z) :
  calls_of h (_get_tile c row col map_type zoom) s
  = match dict_get (tiles c) (tile_idx row col (effective_maptype c map_type) zoom) with
    | Some _ => []
    | None => [Issued (getortho_Tile col row (effective_maptype c map_type) zoom (cache_dir c))]
    end.
Proof.
  unfold _get_tile.
  destruct (dict_get (tiles c) (tile_idx row col (effective_maptype c map_type) zoom)) as [a|];
    [reflexivity|].
  simpl.
  destruct (h unit (getortho_Tile col row (effective_maptype c map_type) zoom (cache_dir c)) s)
    as [[e|u] s']; reflexivity.
Qed.

(** What [_get_tile] leaves behind, whichever branch it takes: a returned
    tile is the one cached under the key; an exception left the dictionary
    and the store as they were, with one more miss. *)
Lemma _get_tile_post {S : Type} (h : handler S) (s : S) (c : TileCacher) (row col : Z)
    (map_type : str) (zoom : Z) :
  cache_wf c ->
  let idx := tile_idx row col (effective_maptype c map_type) zoom in
  let out := result (run h (_get_tile c row col map_type zoom) s) in
  cache_wf (snd out)
  /\ maptype_override (snd out) = maptype_override c
  /\ refcount (snd out) idx = refcount c idx
  /\ match fst out with
     | inr t => dict_get (tiles (snd out)) idx = Some t /\ (t < List.length (store (snd out)))%nat
     | inl e => dict_get (tiles c) idx = None /\ snd out = count_miss c
     end.
Proof.
  intros Hwf idx out. subst out. rewrite _get_tile_run. fold idx.
  destruct (dict_get (tiles c) idx) as [a|] eqn:Hget.
  - assert (Ha : (a < List.length (store c))%nat) by (eapply Hwf, dict_get_in; eassumption).
    destruct (idle c a); simpl; repeat split; auto.
  - destruct (fst (h unit (getortho_Tile col row (effective_maptype c map_type) zoom
                             (cache_dir c)) s)) as [e|u].
    + simpl. repeat split; auto.
    + unfold create_tile; simpl. split; [|split; [reflexivity|split; [|split]]].
      * intros k a Hin. simpl in *. rewrite length_app. simpl.
        apply dict_set_in in Hin. destruct Hin as [Hin| ->]; [|lia].
        apply Hwf in Hin. lia.
      * unfold refcount. simpl. rewrite dict_get_set_same, Hget.
        unfold refs_at. simpl. now rewrite deref_fresh.
      * apply dict_get_set_same.
      * rewrite length_app. simpl. lia.
Qed.

Lemma idle_refs (c : TileCacher) (a : addr) (n : Z) :
  refs_at c a = Some n -> idle c a = (n <=? 0).
Proof.
  unfold idle, refs_at. destruct (deref (store c) a); simpl; [|discriminate].
  now intros [= <-].
Qed.

(** ** Reference counts through [open], [read] and [release] *)

Lemma refcount_bump (c : TileCacher) (idx : str) (t : addr) (d : Z) :
  dict_get (tiles c) idx = Some t -> (t < List.length (store c))%nat ->
  refcount (bump_refs c t d) idx = refcount c idx + d.
Proof.
  intros Hget Hlt. unfold refcount, bump_refs, refs_at. simpl. rewrite Hget.
  rewrite deref_upd_same. destruct (deref_valid _ Hlt) as [x ->]. reflexivity.
Qed.

Lemma bump_refs_wf (c : TileCacher) (t : addr) (d : Z) : cache_wf c -> cache_wf (bump_refs c t d).
Proof.
  intros Hwf k a Hin. simpl in *. rewrite store_upd_length. eapply Hwf; eassumption.
Qed.

(** [t = self.tc._get_tile(...)] within an operation. *)
Lemma get_tile_run {S V : Type} (h : handler S) (s : S) (ao : AutoOrtho) (row col : Z)
    (map_type : str) (zoom : Z) (k : addr -> TileCacher -> op V) :
  run h (get_tile ao row col map_type zoom k) s
  = match fst (result (run h (_get_tile (tc ao) row col map_type zoom) s)) with
    | inl e =>
        mkRan (Err e, with_tc ao (snd (result (run h (_get_tile (tc ao) row col map_type zoom) s))))
          (host (run h (_get_tile (tc ao) row col map_type zoom) s)) []
    | inr t =>
        run h (k t (snd (result (run h (_get_tile (tc ao) row col map_type zoom) s))))
          (host (run h (_get_tile (tc ao) row col map_type zoom) s))
    end.
Proof.
  unfold get_tile, _get_tile.
  destruct (dict_get (tiles (tc ao))
              (tile_idx row col (effective_maptype (tc ao) map_type) zoom)) as [a|];
    [reflexivity|].
  simpl.
  destruct (h unit (getortho_Tile col row (effective_maptype (tc ao) map_type) zoom
                      (cache_dir (tc ao))) s) as [[e|u] s']; simpl; [reflexivity|].
  match goal with |- context [run h ?p s'] => destruct (run h p s') end. reflexivity.
Qed.

Lemma get_tile_calls {S V : Type} (h : handler S) (s : S) (ao : AutoOrtho) (row col : Z)
    (map_type : str) (zoom : Z) (k : addr -> TileCacher -> op V) :
  calls_of h (get_tile ao row col map_type zoom k) s
  = calls_of h (_get_tile (tc ao) row col map_type zoom) s
    ++ match fst (result (run h (_get_tile (tc ao) row col map_type zoom) s)) with
       | inl e => []
       | inr t =>
           calls_of h (k t (snd (result (run h (_get_tile (tc ao) row col map_type zoom) s))))
             (host (run h (_get_tile (tc ao) row col map_type zoom) s))
       end.
Proof.
  unfold get_tile, _get_tile.
  destruct (dict_get (tiles (tc ao))
              (tile_idx row col (effective_maptype (tc ao) map_type) zoom)) as [a|];
    [reflexivity|].
  simpl.
  destruct (h unit (getortho_Tile col row (effective_maptype (tc ao) map_type) zoom
                      (cache_dir (tc ao))) s) as [[e|u] s']; reflexivity.
Qed.

(** [t = _get_tile(..); t.refs += d], the virtual branch of [open] and of
    [release], on any host: either the call returns with the count of the
    key changed by [d] and a handle cached under the key, or the key was
    not cached, the constructor raised, and its exception leaves the
    operation with nothing cached and one more miss. *)
Lemma get_tile_then_bump {S V : Type} (h : handler S) (s : S) (ao : AutoOrtho) (row col : Z)
    (map_type : str) (zoom d : Z) (v : V) :
  cache_wf (tc ao) ->
  let idx := tile_idx row col (effective_maptype (tc ao) map_type) zoom in
  let out := run h (get_tile ao row col map_type zoom
                      (fun t tc1 => ret v (with_tc ao (bump_refs tc1 t d)))) s in
  let c' := tc (snd (result out)) in
  cache_wf c'
  /\ maptype_override c' = maptype_override (tc ao)
  /\ touched out = []
  /\ match dict_get (tiles (tc ao)) idx,
           fst (h unit (getortho_Tile col row (effective_maptype (tc ao) map_type) zoom
                          (cache_dir (tc ao))) s) with
     | None, inl e =>
         fst (result out) = Err e /\ c' = count_miss (tc ao)
     | found, _ =>
         fst (result out) = Ok v
         /\ refcount c' idx = refcount (tc ao) idx + d
         /\ dict_get (tiles c') idx
            = Some match found with Some a => a | None => List.length (store (tc ao)) end
         /\ constructed c'
            = match found with
              | Some _ => constructed (tc ao)
              | None => Datatypes.S (constructed (tc ao))
              end
         /\ misses c' = misses (tc ao) + match found with Some _ => 0 | None => 1 end
     end.
Proof.
  intros Hwf idx out c'. subst out c'. rewrite get_tile_run, _get_tile_run. fold idx.
  destruct (dict_get (tiles (tc ao)) idx) as [a|] eqn:Hget.
  - assert (Ha : (a < List.length (store (tc ao)))%nat)
      by (eapply Hwf, dict_get_in; eassumption).
    cbn [fst snd result host touched run ret tc with_tc].
    split; [apply bump_refs_wf; destruct (idle (tc ao) a); exact Hwf|].
    split; [now destruct (idle (tc ao) a)|]. split; [reflexivity|].
    assert (G : refcount (bump_refs (if idle (tc ao) a then count_hit (tc ao) else tc ao) a d) idx
                = refcount (tc ao) idx + d
                /\ dict_get (tiles (bump_refs (if idle (tc ao) a then count_hit (tc ao) else tc ao) a d)) idx
                   = Some a
                /\ constructed (bump_refs (if idle (tc ao) a then count_hit (tc ao) else tc ao) a d)
                   = constructed (tc ao)
                /\ misses (bump_refs (if idle (tc ao) a then count_hit (tc ao) else tc ao) a d)
                   = misses (tc ao) + 0).
    { destruct (idle (tc ao) a).
      - split; [rewrite refcount_bump by assumption; reflexivity|].
        split; [simpl; exact Hget|].
        split; [unfold constructed, bump_refs; simpl; apply store_upd_length|simpl; lia].
      - split; [rewrite refcount_bump by assumption; reflexivity|].
        split; [simpl; exact Hget|].
        split; [unfold constructed, bump_refs; simpl; apply store_upd_length|simpl; lia]. }
    destruct (fst (h unit (getortho_Tile col row (effective_maptype (tc ao) map_type) zoom
                             (cache_dir (tc ao))) s)); (split; [reflexivity|exact G]).
  - destruct (fst (h unit (getortho_Tile col row (effective_maptype (tc ao) map_type) zoom
                             (cache_dir (tc ao))) s)) as [e|u].
    + cbn [fst snd result host touched run ret tc with_tc]. repeat split; auto.
    + cbn [fst snd result host touched run ret tc with_tc].
      unfold create_tile. cbn [snd].
      split.
      { apply bump_refs_wf. intros k a Hin. simpl in *. rewrite length_app. simpl.
        apply dict_set_in in Hin. destruct Hin as [Hin| ->]; [|lia].
        apply Hwf in Hin. lia. }
      split; [reflexivity|]. split; [reflexivity|]. split; [reflexivity|].
      split.
      { rewrite refcount_bump.
        - unfold refcount. simpl. rewrite dict_get_set_same, Hget.
          unfold refs_at. simpl. now rewrite deref_fresh.
        - simpl. apply dict_get_set_same.
        - simpl. rewrite length_app. simpl. lia. }
      split; [simpl; apply dict_get_set_same|].
      split; [|reflexivity].
      unfold constructed, bump_refs. simpl. rewrite store_upd_length, length_app. simpl. lia.
Qed.

Lemma path_key_override (c c' : TileCacher) (p : str) :
  maptype_override c' = maptype_override c -> path_key c' p = path_key c p.
Proof. intros H. unfold path_key, effective_maptype. now rewrite H. Qed.


(** The virtual branch of [release]. *)
Lemma release_virtual {S : Type} (h : handler S) (s : S) (ao : AutoOrtho)
    (p row col maptype zoom : str) (fh : Z) :
  dds_match p = Some (row, col, maptype, zoom) ->
  run h (release ao p fh) s
  = run h (get_tile ao (py_int row) (py_int col) maptype (py_int zoom)
             (fun t tc1 => ret (Some 0) (with_tc ao (bump_refs tc1 t (-1))))) s.
Proof. intros Hm. unfold release. now rewrite Hm. Qed.

Lemma serve_all_cons {S : Type} (cwd : str) (h : handler S) (s : S) (ao : AutoOrtho)
    (r : request) (rs : list request) :
  serve_all cwd h s ao (r :: rs)
  = serve_all cwd h (snd (after cwd h s ao r)) (fst (after cwd h s ao r)) rs.
Proof.
  change (serve_all cwd h s ao (r :: rs))
    with (let '(ao', s') := after cwd h s ao r in serve_all cwd h s' ao' rs).
  now destruct (after cwd h s ao r).
Qed.

(** ** Leading zeros *)






(** ** The reclamation pass *)

Lemma idle_by_refs (c : TileCacher) (a : addr) :
  idle c a = match refs_at c a with Some n => n <=? 0 | None => false end.
Proof. unfold idle, refs_at. now destruct (deref (store c) a). Qed.

Lemma idle_same_refs (c c' : TileCacher) (a : addr) : same_refs c c' -> idle c' a = idle c a.
Proof. intros H. now rewrite !idle_by_refs, H. Qed.

Lemma dict_get_mid (pre rest : list (str * addr)) (k : str) (a : addr) :
  ~ In k (map fst pre) -> dict_get (pre ++ (k, a) :: rest) k = Some a.
Proof.
  induction pre as [|[k' a'] pre IH]; simpl; intros Hn.
  - now rewrite str_eqb_refl.
  - destruct (str_eqb k' k) eqn:E.
    + apply str_eqb_eq in E. tauto.
    + apply IH. tauto.
Qed.

Lemma dict_pop_mid (pre rest : list (str * addr)) (k : str) (a : addr) :
  ~ In k (map fst pre) -> dict_pop (pre ++ (k, a) :: rest) k = pre ++ rest.
Proof.
  induction pre as [|[k' a'] pre IH]; simpl; intros Hn.
  - now rewrite str_eqb_refl.
  - destruct (str_eqb k' k) eqn:E.
    + apply str_eqb_eq in E. tauto.
    + rewrite IH; tauto.
Qed.

Lemma nodup_mid (pre l : list (str * addr)) (k : str) (a : addr) :
  NoDup (map fst (pre ++ (k, a) :: l)) ->
  ~ In k (map fst pre) /\ NoDup (map fst (pre ++ l)).
Proof.
  rewrite !map_app. simpl. intros H. split.
  - intros Hin. apply NoDup_remove_2 in H. apply H. apply in_or_app. now left.
  - now apply NoDup_remove_1 in H.
Qed.

Lemma evict_same_refs (c : TileCacher) (k : str) (a : addr) : same_refs c (evict c k a).
Proof.
  intros b. unfold refs_at, evict. simpl.
  destruct (Nat.eq_dec a b) as [<-|Hne].
  - rewrite deref_upd_same. now destruct (deref (store c) a).
  - now rewrite deref_upd_other.
Qed.

Lemma evict_closed (c : TileCacher) (k : str) (a b : addr) :
  closed_at c b \/ (b = a /\ idle c a = true) -> closed_at (evict c k a) b.
Proof.
  unfold closed_at, evict, idle. simpl. intros H.
  destruct (Nat.eq_dec a b) as [<-|Hne].
  - rewrite deref_upd_same. destruct (deref (store c) a); simpl in *; [reflexivity|].
    destruct H as [H|[_ H]]; discriminate.
  - rewrite deref_upd_other by assumption. destruct H as [H|[H _]]; [assumption|congruence].
Qed.

(** The inner [for] over the keys of the entries [l1], which are in the
    dictionary after the entries [pre] already looked at and kept. *)
Lemma clean_keys_fold (c0 : TileCacher) (l1 : list (str * addr)) :
  forall (pre l2 : list (str * addr)) (c : TileCacher),
  tiles c = pre ++ l1 ++ l2 ->
  NoDup (map fst (pre ++ l1 ++ l2)) ->
  same_refs c0 c ->
  let c' := fold_left clean_key (map fst l1) c in
  tiles c' = pre ++ filter (fun e => negb (idle c0 (snd e))) l1 ++ l2
  /\ same_refs c0 c'
  /\ (forall b, closed_at c b -> closed_at c' b)
  /\ (forall k a, In (k, a) l1 -> idle c0 a = true -> closed_at c' a).
Proof.
  induction l1 as [|[k a] l1 IH]; intros pre l2 c Ht Hnd Hrefs; simpl.
  - repeat split; auto. intros k a [].
  - destruct (@nodup_mid pre (l1 ++ l2) k a Hnd) as (Hk & Hnd').
    assert (Hget : dict_get (tiles c) k = Some a)
      by (rewrite Ht; apply dict_get_mid; exact Hk).
    assert (Hidle : idle c a = idle c0 a) by (apply idle_same_refs; exact Hrefs).
    assert (Hck : clean_key c k = if idle c0 a then evict c k a else c)
      by (unfold clean_key; now rewrite Hget, Hidle).
    rewrite Hck. clear Hck.
    destruct (idle c0 a) eqn:Hi0; simpl negb; cbv iota.
    + assert (Hc1 : tiles (evict c k a) = pre ++ l1 ++ l2)
        by (unfold evict; simpl; rewrite Ht; apply dict_pop_mid; exact Hk).
      assert (Hr1 : same_refs c0 (evict c k a)).
      { intros b. rewrite (@evict_same_refs c k a b). apply Hrefs. }
      destruct (IH pre l2 (evict c k a) Hc1 Hnd' Hr1) as (Ht' & Hr' & Hcl & Hev).
      split; [exact Ht'|]. split; [exact Hr'|]. split.
      * intros b Hb. apply Hcl. apply evict_closed. now left.
      * intros k' a' [[= <- <-]|Hin] Hi; [|eauto].
        apply Hcl. apply evict_closed. right. split; [reflexivity|congruence].
    + assert (Hc1 : tiles c = (pre ++ [(k, a)]) ++ l1 ++ l2)
        by (rewrite Ht; now rewrite <- app_assoc).
      assert (Hnd1 : NoDup (map fst ((pre ++ [(k, a)]) ++ l1 ++ l2)))
        by (now rewrite <- app_assoc).
      destruct (IH (pre ++ [(k, a)]) l2 c Hc1 Hnd1 Hrefs) as (Ht' & Hr' & Hcl & Hev).
      rewrite <- app_assoc in Ht'.
      split; [exact Ht'|]. split; [exact Hr'|]. split; [exact Hcl|].
      intros k' a' [[= <- <-]|Hin] Hi; [congruence|eauto].
Qed.




(** ** Threads *)

(** The steps of a thread, taken without interruption, are [_get_tile] on
    a host whose constructor answers as the thread's does. *)
Lemma gt_run_get_tile {S : Type} (h : handler S) (s : S) (c : TileCacher) (row col : Z)
    (map_type : str) (zoom : Z) :
  gt_run 3 (fst (h unit (getortho_Tile col row (effective_maptype c map_type) zoom
                           (cache_dir c)) s))
    c (GtLookup row col map_type zoom)
  = Some (result (run h (_get_tile c row col map_type zoom) s)).
Proof.
  rewrite _get_tile_run. simpl.
  destruct (dict_get (tiles c) (tile_idx row col (effective_maptype c map_type) zoom)) as [a|];
    simpl; [destruct (idle c a); reflexivity|].
  destruct (fst (h unit (getortho_Tile col row (effective_maptype c map_type) zoom
                           (cache_dir c)) s)) as [e|u]; reflexivity.
Qed.

(** The two steps of [clean] on a key, taken without interruption, are
    [clean_key]. *)
Lemma clean_steps_clean_key (c : TileCacher) (i : str) (keys : list str) (samples : list Z) (a : addr) :
  dict_get (tiles c) i = Some a ->
  match clean_step c (CFor (i :: keys) samples) with
  | Some (c1, CPop j keys' samples', _, _) =>
      match clean_step c1 (CPop j keys' samples') with
      | Some (c2, pc, _, _) => c2 = clean_key c i /\ pc = CFor keys samples
      | None => False
      end
  | Some (c1, pc, _, _) => c1 = clean_key c i /\ pc = CFor keys samples
  | None => False
  end.
Proof.
  intros Hget. unfold clean_key. simpl. rewrite Hget.
  destruct (idle c a); simpl; [rewrite Hget|]; auto.
Qed.

(** C1 at a schedule of two threads calling [_get_tile] with one identity on
    an empty cache: thread 0 looks the key up and finds nothing, thread 1
    looks it up and finds nothing, then each in turn counts a miss,
    constructs a tile and inserts it.  The constructor has run twice, the
    two calls have returned two different tiles, and the tile thread 0
    holds is no longer the one in the cache. *)
Theorem _get_tile_race_constructs_twice :
  exists w,
    run_schedule (start (empty_cache None (lit ".cache")) two_calls) [0; 1; 0; 0; 1; 1]%nat
      = Some w
    /\ constructed (w_tc w) = 2%nat
    /\ obtained w 0%nat = Some 0%nat
    /\ obtained w 1%nat = Some 1%nat
    /\ dict_get (tiles (w_tc w)) sample_key = Some 1%nat
    /\ misses (w_tc w) = 2.
Proof. vm_compute. eexists. repeat split. Qed.

(** The same two calls one after the other construct one tile. *)
Example _get_tile_in_turn_constructs_once :
  exists w,
    run_schedule (start (empty_cache None (lit ".cache")) two_calls) [0; 0; 0; 1; 1]%nat = Some w
    /\ constructed (w_tc w) = 1%nat
    /\ obtained w 0%nat = Some 0%nat /\ obtained w 1%nat = Some 0%nat.
Proof. vm_compute. eexists. repeat split. Qed.

(** A constructor that raises leaves the call by its exception: the miss
    has been counted and nothing is cached. *)
Example _get_tile_constructor_raises :
  exists w,
    run_schedule
      (start (empty_cache None (lit ".cache"))
         [InGetTile Bare (inl ENOENT) (GtLookup 24832 12416 (lit "BI") 16)]) [0; 0; 0]%nat
      = Some w
    /\ w_threads w = [Raised ENOENT]
    /\ tiles (w_tc w) = [] /\ constructed (w_tc w) = 0%nat /\ misses (w_tc w) = 1.
Proof. vm_compute. eexists. repeat split. Qed.

(** C3 at a schedule of two opens of one virtual path that overlap, followed
    by their two releases, on an empty cache: both opens miss (as in the
    schedule of C1), each constructs a tile and raises the count of its own
    tile, and both return; the cache holds the second tile, with count 1
    after two opens.  The releases then run one after the other, each
    complete before the next: both find the cached tile and lower its count,
    to 0 and then to -1.  So over this balanced sequence the count of the
    identity, 0 before it, is -1 after it; the first tile, held by no one,
    keeps its count of 1. *)
Theorem overlapping_opens_leave_count_negative :
  exists w1 w2,
    refcount (empty_cache None (lit ".cache")) sample_key = 0
    /\ run_schedule (start (empty_cache None (lit ".cache")) two_opens_two_releases)
         [0; 1; 0; 0; 1; 1; 0; 1]%nat = Some w1
    /\ obtained w1 0%nat = Some 0%nat
    /\ obtained w1 1%nat = Some 1%nat
    /\ refcount (w_tc w1) sample_key = 1
    /\ run_schedule w1 [2; 2; 2; 3; 3; 3]%nat = Some w2
    /\ obtained w2 2%nat = Some 1%nat
    /\ obtained w2 3%nat = Some 1%nat
    /\ refcount (w_tc w2) sample_key = -1
    /\ refs_at (w_tc w2) 0%nat = Some 1.
Proof. vm_compute. do 2 eexists. repeat split. Qed.

(** C8 at a schedule of a call of [_get_tile] against an [open] of the same
    tile, cached with count 0: the open looks the tile up, counts its hit
    and is about to raise the count; the call looks the tile up under the
    lock and finds it, its count being 0 at that moment; the open executes
    [t.refs += 1]; the call, the lock long released, tests [tile.refs <= 0],
    finds 1 and counts nothing.  A handle existed and its count at lookup
    time was 0, and no hit was counted for the call: the counter stands at
    the one hit of the open. *)
Theorem _get_tile_hit_tested_after_lookup :
  exists w1 w2,
    run_schedule (start (one_tile_cache 0) getter_and_opener) [1; 1; 0]%nat = Some w1
    /\ nth_error (w_threads w1) 0%nat = Some (InGetTile Bare (inr tt) (GtFound 0%nat))
    /\ refs_at (w_tc w1) 0%nat = Some 0
    /\ hits (w_tc w1) = 1
    /\ run_schedule w1 [1; 0]%nat = Some w2
    /\ obtained w2 0%nat = Some 0%nat
    /\ refs_at (w_tc w2) 0%nat = Some 1
    /\ hits (w_tc w2) = 1
    /\ misses (w_tc w2) = 0.
Proof. vm_compute. do 2 eexists. repeat split. Qed.

(** C2 at a schedule of [open] against [clean] on a cache of 90 idle tiles
    with 3 GiB resident: [open] obtains the oldest tile from [_get_tile]
    (two steps); [clean] enters its loop, takes the lock and finds the
    count of that tile at most 0; [open] executes [t.refs += 1], which
    needs no lock; [clean] pops and closes the tile.  At the pop the
    reference count of the removed tile is 1, and the open that returned
    holds a tile that is closed and no longer cached. *)
Theorem clean_evicts_tile_opened_meanwhile :
  exists w,
    run_schedule (start (prefill 90) opener_and_cleaner) [0; 0; 1; 1; 0; 1]%nat = Some w
    /\ w_evicted w = [(0%nat, 1)]
    /\ obtained w 0%nat = Some 0%nat
    /\ refs_at (w_tc w) 0%nat = Some 1
    /\ closed_at (w_tc w) 0%nat
    /\ dict_get (tiles (w_tc w)) (tile_idx 0 7 (lit "BI") 16) = None.
Proof. vm_compute. eexists. repeat split. Qed.

(** ** Attributes, truncate, write and flush on virtual paths *)



(** On any other path [getattr] is [os.lstat] of the path under the root. *)
Example getattr_real_absent :
  fst (result (run absent_host (getattr (lit "/") fresh_mount (lit "/Earth nav data") None) tt))
  = Err ENOENT.
Proof. reflexivity. Qed.

(** C6, as stated: truncate, write and flush succeed on every virtual path.
    [truncate] does not: it opens the file of that name under the root, and
    where no such file exists the open fails with ENOENT. *)
Lemma truncate_virtual_not_accepted :
  ~ (forall path length,
       dds_match path <> None ->
       fst (result (run absent_host (truncate (lit "/") fresh_mount path length None) tt))
       = Ok tt).
Proof.
  intros H. specialize (H sample_path 0).
  assert (Hv : dds_match sample_path <> None) by (vm_compute; discriminate).
  specialize (H Hv). vm_compute in H. discriminate H.
Qed.

(** C6, amended: on a virtual path [_flush] returns 0 without a call to the
    host.  [truncate] and [_write] go to the host as on any other path and
    leave the tile cache alone.  [truncate] opens the file of that name
    under the root for update; where the open fails it fails with that
    error and does no more; otherwise it truncates the file to the length
    and closes it, and succeeds unless one of the two fails.  [_write] seeks
    to the offset on the file handle it is given; where the seek fails it
    fails with that error and writes nothing; otherwise it writes the
    buffer and returns what the write returns, or its error. *)
Theorem virtual_flush_truncate_write {S : Type} (cwd : str) (h : handler S) (s : S)
    (ao : AutoOrtho) (path : str) (length : Z) (fh : option Z) (buf : bytes) (offset fd : Z) :
  dds_match path <> None ->
  let full := _full_path cwd ao path in
  _flush ao path fd = Ret (Ok (Some 0), ao)
  /\ calls_of h (_flush ao path fd) s = []
  /\ snd (result (run h (truncate cwd ao path length fh) s)) = ao
  /\ match h Z (open_rplus full) s with
     | (inl e, _) =>
         calls_of h (truncate cwd ao path length fh) s = [Issued (open_rplus full)]
         /\ fst (result (run h (truncate cwd ao path length fh) s)) = Err e
     | (inr f, s1) =>
         calls_of h (truncate cwd ao path length fh) s
         = [Issued (open_rplus full); Issued (file_truncate f length); Issued (file_close f)]
         /\ fst (result (run h (truncate cwd ao path length fh) s))
            = match fst (h Z (file_truncate f length) s1),
                    fst (h unit (file_close f) (snd (h Z (file_truncate f length) s1))) with
              | _, inl e => Err e
              | inl e, inr _ => Err e
              | inr _, inr _ => Ok tt
              end
     end
  /\ snd (result (run h (_write ao path buf offset fd) s)) = ao
  /\ match h Z (os_lseek fd offset) s with
     | (inl e, _) =>
         calls_of h (_write ao path buf offset fd) s = [Issued (os_lseek fd offset)]
         /\ fst (result (run h (_write ao path buf offset fd) s)) = Err e
     | (inr _, s1) =>
         calls_of h (_write ao path buf offset fd) s
         = [Issued (os_lseek fd offset); Issued (os_write fd buf)]
         /\ fst (result (run h (_write ao path buf offset fd) s))
            = match fst (h Z (os_write fd buf) s1) with
              | inl e => Err e
              | inr n => Ok n
              end
     end.
Proof.
  intros Hv full.
  assert (Hf : _flush ao path fd = Ret (Ok (Some 0), ao))
    by (unfold _flush; destruct (dds_match path); [reflexivity|congruence]).
  split; [exact Hf|]. split; [now rewrite Hf|].
  unfold truncate, _write, call. fold full. simpl.
  destruct (h Z (open_rplus full) s) as [[e|f] s1]; simpl;
    destruct (h Z (os_lseek fd offset) s) as [[e'|n] s2]; simpl;
    try (destruct (h Z (file_truncate f length) s1) as [[e1|n1] s3]; simpl;
         destruct (h unit (file_close f) s3) as [[e2|u] s4]; simpl);
    try (destruct (h Z (os_write fd buf) s2) as [[e3|n3] s5]; simpl);
    repeat split.
Qed.

(** On the host where nothing exists, truncation of a virtual path fails
    at the open; on one where the file exists it is truncated. *)
Lemma virtual_flush_truncate_write_witness :
  _flush fresh_mount sample_path 0 = Ret (Ok (Some 0), fresh_mount)
  /\ result (run absent_host (truncate (lit "/") fresh_mount sample_path 0 None) tt)
     = (Err ENOENT, fresh_mount)
  /\ calls_of writable_host (truncate (lit "/") fresh_mount sample_path 0 None) tt
     = [Issued (open_rplus (lit "/scenery/24832_12416_BI16.dds"));
        Issued (file_truncate 3 0); Issued (file_close 3)]
  /\ calls_of writable_host (_write fresh_mount sample_path [] 128 7) tt
     = [Issued (os_lseek 7 128); Issued (os_write 7 [])].
Proof.
  assert (Hv : dds_match sample_path <> None) by (vm_compute; discriminate).
  pose proof (@virtual_flush_truncate_write unit (lit "/") absent_host tt fresh_mount
                sample_path 0 None [] 128 7 Hv) as Ha.
  pose proof (@virtual_flush_truncate_write unit (lit "/") writable_host tt fresh_mount
                sample_path 0 None [] 128 7 Hv) as Hw.
  cbv zeta in Ha, Hw.
  destruct Ha as (Hf & _ & Hc & Ht & _). destruct Hw as (_ & _ & _ & Ht' & _ & Hw').
  split; [exact Hf|]. split; [|split].
  - destruct (result (run absent_host (truncate (lit "/") fresh_mount sample_path 0 None) tt))
      as [o a].
    simpl in Hc. subst a. f_equal. exact (proj2 Ht).
  - exact (proj1 Ht').
  - exact (proj1 Hw').
Defined.

(** ** Resolving a request path under the root *)




















(** ** Host calls name re-rooted request paths only *)

Ltac answer h :=
  repeat match goal with
  | |- context [h ?X ?c ?s] =>
      let e := fresh "e" in let x := fresh "x" in let s' := fresh "s" in
      destruct (h X c s) as [[e|x] s']; simpl
  | |- context [match dds_match ?p with _ => _ end] =>
      destruct (dds_match p) as [[[[? ?] ?] ?]|]; simpl
  | |- context [match dict_get ?d ?k with _ => _ end] => destruct (dict_get d k); simpl
  | |- context [let '(_, _) := ?x in _] => destruct x; simpl
  | |- context [if ?b then _ else _] => destruct b; simpl
  end.


Lemma serve_real_keeps_cache {S : Type} (cwd : str) (h : handler S) (s : S) (ao : AutoOrtho)
    (r : request) :
  Forall (fun p => dds_match p = None) (request_paths r) ->
  snd (result (run h (serve cwd ao r) s)) = ao.
Proof.
  intros Hreal.
  destruct r; unfold serve;
    match goal with |- context [replying ?g ?p] => rewrite (proj1 (run_replying h g p s)) end;
    simpl in Hreal; pose proof (Forall_inv Hreal) as Hd;
    unfold _access, chmod, chown, getattr, readdir, readlink, mknod, rmdir, mkdir, statfs,
      unlink, symlink, rename, link, utimens, open, _create, read, _write, truncate, _flush,
      _releasedir, release, close, call, ret; rewrite ?Hd; simpl; answer h; reflexivity.
Qed.

(** [_full_path] answers every request path, also the empty one and the
    root. *)
Example _full_path_of_root :
  _full_path (lit "/") fresh_mount (lit "/") = lit "/scenery"
  /\ _full_path (lit "/") fresh_mount [] = lit "/scenery".
Proof. split; reflexivity. Qed.

(** A second leading slash makes the request path replace the root. *)
Example _full_path_double_slash :
  _full_path (lit "/") fresh_mount (lit "//etc/passwd") = lit "/etc/passwd".
Proof. reflexivity. Qed.






(** * Further properties of the code *)

(** ** The classifier on arbitrary paths *)

(** Whatever path the classifier recognizes holds, after some slash, a
    name of the form it extracts: row, column and zoom are non-empty runs of
    digits (so [int] accepts them), the map type is a run of non-digits that
    does not begin with ZL, the separators are '-' or '_', one character
    other than a newline stands before dds, and anything may follow. *)
Theorem dds_match_sound (path row col maptype zoom : str) :
  dds_match path = Some (row, col, maptype, zoom) ->
  digits row /\ row <> [] /\ digits col /\ col <> []
  /\ nondigits maptype /\ startswith maptype (lit "ZL") = false
  /\ digits zoom /\ zoom <> []
  /\ exists prefix s1 s2 x rest,
       is_sep s1 = true /\ is_sep s2 = true
       /\ no_char newline prefix /\ Ascii.eqb x newline = false
       /\ path = prefix ++ "/"%char :: row ++ s1 :: col ++ s2 :: maptype ++ zoom
                   ++ x :: lit "dds" ++ rest.
Proof. apply dds_match_shape. Qed.

Lemma dds_match_sound_witness :
  digits (lit "24832") /\ nondigits (lit "BI")
  /\ exists prefix s1 s2 x rest,
       lit "/mnt/24832_12416_BI16xdds.bak"
       = prefix ++ "/"%char :: lit "24832" ++ s1 :: lit "12416" ++ s2 :: lit "BI" ++ lit "16"
           ++ x :: lit "dds" ++ rest.
Proof.
  destruct (@dds_match_sound (lit "/mnt/24832_12416_BI16xdds.bak")
              (lit "24832") (lit "12416") (lit "BI") (lit "16") eq_refl)
    as (Hr & _ & _ & _ & Hm & _ & _ & _ & prefix & s1 & s2 & x & rest & _ & _ & _ & _ & Hp).
  split; [exact Hr|]. split; [exact Hm|].
  exists prefix, s1, s2, x, rest. exact Hp.
Defined.

(** A path without a slash, the empty path included, is never virtual,
    whatever its name. *)
Theorem dds_match_without_slash (path : str) :
  no_char "/" path -> dds_match path = None.
Proof.
  intros Hno. unfold dds_match, rmatch, dds_re.
  change (exec (Star Dot :: ?r) ?i ?m) with (star_loop (accepts Dot) (exec r) i m).
  rewrite star_loop_none; [reflexivity|].
  intros a b ->. apply slash_needed. eapply no_char_suffix. exact Hno.
Qed.

Lemma dds_match_without_slash_witness :
  dds_match (lit "24832_12416_BI16.dds") = None /\ dds_match [] = None.
Proof.
  split; apply dds_match_without_slash; repeat constructor.
Defined.

(** ** Cache keys *)

Lemma uint_text_digits (d : Decimal.uint) : digits (lit (NilEmpty.string_of_uint d)).
Proof. induction d; simpl; constructor; try reflexivity; assumption. Qed.

Lemma uint_text_nonempty (d : Decimal.uint) :
  digits (lit (NilZero.string_of_uint d)) /\ lit (NilZero.string_of_uint d) <> [].
Proof.
  destruct d; (split; [|simpl; discriminate]);
    first [ repeat constructor; fail
          | match goal with |- digits (lit (NilZero.string_of_uint ?u)) =>
              exact (uint_text_digits u) end ].
Qed.

Lemma py_str_digits (n : Z) : 0 <= n -> digits (py_str n) /\ py_str n <> [].
Proof.
  intros Hn. unfold py_str. destruct n as [|p|p]; [| |lia].
  - split; [repeat constructor|discriminate].
  - apply (uint_text_nonempty (Pos.to_uint p)).
Qed.

Lemma lit_inj (a b : string) : lit a = lit b -> a = b.
Proof.
  intros H. rewrite <- (string_of_list_ascii_of_string a), <- (string_of_list_ascii_of_string b).
  unfold lit in H. now rewrite H.
Qed.

(** [str] of integers is one-to-one. *)
Lemma py_str_inj (a b : Z) : py_str a = py_str b -> a = b.
Proof.
  intros H. apply lit_inj in H. apply DecimalZ.to_int_inj.
  assert (Hok : forall n, Z.to_int n <> Decimal.Pos Decimal.Nil
                          /\ Z.to_int n <> Decimal.Neg Decimal.Nil).
  { intros [|p|p]; simpl; split; try discriminate; intros [= E];
      now apply DecimalPos.Unsigned.to_uint_nonnil in E. }
  destruct (Hok a) as [Ha1 Ha2]. destruct (Hok b) as [Hb1 Hb2].
  apply (f_equal NilZero.int_of_string) in H.
  rewrite !NilZero.isi in H by assumption. now injection H.
Qed.

Lemma digit_range (c : ascii) : is_digit c = true -> 0 <= digit_val c <= 9.
Proof.
  unfold is_digit, digit_val. intros H. apply andb_true_iff in H.
  destruct H as [H1 H2]. apply N.leb_le in H1, H2. lia.
Qed.

Lemma py_int_nonneg (s : str) : digits s -> 0 <= py_int s.
Proof.
  unfold py_int. assert (G : forall acc, 0 <= acc -> digits s ->
    0 <= fold_left (fun acc c => 10 * acc + digit_val c) s acc).
  { induction s as [|c s IH]; intros acc Hacc Hs; cbn [fold_left]; [assumption|].
    inversion Hs; subst. apply IH; [|assumption].
    pose proof (digit_range c ltac:(assumption)). lia. }
  intros Hs. apply G; [lia|assumption].
Qed.

(** A run of digits followed by a non-digit is read off in one way. *)
Lemma digit_run_unique (a a' r r' : str) (x x' : ascii) :
  digits a -> digits a' -> is_digit x = false -> is_digit x' = false ->
  a ++ x :: r = a' ++ x' :: r' -> a = a' /\ x = x' /\ r = r'.
Proof.
  revert a'. induction a as [|c a IH]; intros [|c' a'] Ha Ha' Hx Hx' E; simpl in E.
  - injection E as -> ->. auto.
  - injection E as -> _. inversion Ha'; subst. congruence.
  - injection E as -> _. inversion Ha; subst. congruence.
  - injection E as -> E. inversion Ha; inversion Ha'; subst.
    destruct (IH a' ltac:(assumption) ltac:(assumption) Hx Hx' E) as (-> & -> & ->). auto.
Qed.

(** The key names its identity: for non-negative rows, columns and zooms
    two keys are equal only if all four fields are. *)
Lemma tile_idx_inj (row col zoom row' col' zoom' : Z) (m m' : str) :
  0 <= row -> 0 <= col -> 0 <= zoom -> 0 <= row' -> 0 <= col' -> 0 <= zoom' ->
  tile_idx row col m zoom = tile_idx row' col' m' zoom' ->
  row = row' /\ col = col' /\ m = m' /\ zoom = zoom'.
Proof.
  intros Hr Hc Hz Hr' Hc' Hz' E. unfold tile_idx in E.
  change (lit "_") with ["_"%char] in E. simpl app in E.
  destruct (py_str_digits Hr) as [Dr _]. destruct (py_str_digits Hr') as [Dr' _].
  destruct (py_str_digits Hc) as [Dc _]. destruct (py_str_digits Hc') as [Dc' _].
  destruct (py_str_digits Hz) as [Dz _]. destruct (py_str_digits Hz') as [Dz' _].
  destruct (@digit_run_unique _ _ _ _ "_"%char "_"%char Dr Dr' eq_refl eq_refl E) as (Er & _ & E1).
  destruct (@digit_run_unique _ _ _ _ "_"%char "_"%char Dc Dc' eq_refl eq_refl E1) as (Ec & _ & E2).
  apply (f_equal (@rev ascii)) in E2. rewrite !rev_app_distr in E2. simpl in E2.
  rewrite <- !app_assoc in E2. simpl in E2.
  assert (Rz : digits (rev (py_str zoom))) by (apply Forall_rev; exact Dz).
  assert (Rz' : digits (rev (py_str zoom'))) by (apply Forall_rev; exact Dz').
  destruct (@digit_run_unique _ _ _ _ "_"%char "_"%char Rz Rz' eq_refl eq_refl E2) as (Ez & _ & Em).
  apply (f_equal (@rev ascii)) in Ez, Em. rewrite !rev_involutive in Ez, Em.
  repeat split; auto using py_str_inj.
Qed.

(** Two recognized paths have the same cache key exactly when they give the
    same row, column and zoom as integers and the same map type (after the
    override, if one is set): the key built by string interpolation never
    makes two tiles collide. *)
Theorem path_key_same_identity (c : TileCacher) (p p' row col m zoom row' col' m' zoom' : str) :
  dds_match p = Some (row, col, m, zoom) ->
  dds_match p' = Some (row', col', m', zoom') ->
  (path_key c p = path_key c p'
   <-> py_int row = py_int row' /\ py_int col = py_int col'
       /\ effective_maptype c m = effective_maptype c m' /\ py_int zoom = py_int zoom').
Proof.
  intros Hp Hp'. unfold path_key. rewrite Hp, Hp'.
  destruct (@dds_match_shape p row col m zoom Hp) as (Dr & _ & Dc & _ & _ & _ & Dz & _).
  destruct (@dds_match_shape p' row' col' m' zoom' Hp') as (Dr' & _ & Dc' & _ & _ & _ & Dz' & _).
  split.
  - intros [= E]. apply tile_idx_inj in E; auto using py_int_nonneg.
  - intros (-> & -> & -> & ->). reflexivity.
Qed.

Lemma path_key_same_identity_witness :
  path_key (empty_cache None (lit ".cache")) (lit "/a/0024832_12416_BI16.dds")
  = path_key (empty_cache None (lit ".cache")) (lit "/b/24832-12416-BI016.dds")
  /\ path_key (empty_cache None (lit ".cache")) (lit "/a/24832_12416_BI16.dds")
     <> path_key (empty_cache None (lit ".cache")) (lit "/a/24832_12416_BI17.dds").
Proof.
  split.
  - apply (@path_key_same_identity (empty_cache None (lit ".cache"))
             (lit "/a/0024832_12416_BI16.dds") (lit "/b/24832-12416-BI016.dds")
             (lit "0024832") (lit "12416") (lit "BI") (lit "16")
             (lit "24832") (lit "12416") (lit "BI") (lit "016") eq_refl eq_refl).
    repeat split.
  - intros E.
    apply (@path_key_same_identity (empty_cache None (lit ".cache"))
             (lit "/a/24832_12416_BI16.dds") (lit "/a/24832_12416_BI17.dds")
             (lit "24832") (lit "12416") (lit "BI") (lit "16")
             (lit "24832") (lit "12416") (lit "BI") (lit "17") eq_refl eq_refl) in E.
    destruct E as (_ & _ & _ & E). vm_compute in E. discriminate E.
Defined.

(** ** Invariants of the cache *)

Lemma dict_set_keys (d : list (str * addr)) (k : str) (v : addr) :
  dict_keys (dict_set d k v)
  = match dict_get d k with Some _ => dict_keys d | None => dict_keys d ++ [k] end.
Proof.
  unfold dict_keys. induction d as [|[k' v'] d IH]; simpl; [reflexivity|].
  destruct (str_eqb k' k) eqn:E; simpl; [reflexivity|].
  rewrite IH. now destruct (dict_get d k).
Qed.

Lemma dict_get_none_notin (d : list (str * addr)) (k : str) :
  dict_get d k = None -> ~ In k (dict_keys d).
Proof.
  unfold dict_keys. induction d as [|[k' v'] d IH]; simpl; [tauto|].
  destruct (str_eqb k' k) eqn:E; [discriminate|].
  apply str_eqb_neq in E. intros H [H1|H1]; [congruence|]. now apply IH.
Qed.

Lemma nodup_snoc {A : Type} (l : list A) (x : A) : NoDup l -> ~ In x l -> NoDup (l ++ [x]).
Proof.
  intros Hl Hx. induction l as [|y l IH]; simpl.
  - constructor; [tauto|constructor].
  - inversion Hl; subst. constructor.
    + rewrite in_app_iff. simpl. intros [H|[H|[]]]; [tauto|]. subst. apply Hx. now left.
    + apply IH; [assumption|]. intros H. apply Hx. now right.
Qed.

Lemma dict_set_values (d : list (str * addr)) (k : str) (v : addr) :
  NoDup (map snd d) -> ~ In v (map snd d) -> NoDup (map snd (dict_set d k v)).
Proof.
  induction d as [|[k' v'] d IH]; simpl; intros Hnd Hv.
  - constructor; [tauto|constructor].
  - inversion Hnd; subst. destruct (str_eqb k' k); simpl.
    + constructor; [tauto|assumption].
    + constructor.
      * intros Hin. apply in_map_iff in Hin. destruct Hin as ([k2 v2] & Hs & Hin).
        simpl in Hs. subst v2. apply dict_set_in in Hin. destruct Hin as [Hin| ->]; [|tauto].
        match goal with H : ~ In v' (map snd d) |- _ => apply H end.
        apply in_map_iff. exists (k2, v'). auto.
      * apply IH; tauto.
Qed.

Lemma dict_pop_in (d : list (str * addr)) (k : str) (e : str * addr) :
  In e (dict_pop d k) -> In e d.
Proof.
  induction d as [|[k' v'] d IH]; simpl; [tauto|].
  destruct (str_eqb k' k); simpl; [tauto|]. intros [H|H]; [now left|right; now apply IH].
Qed.

Lemma dict_pop_nodup {B : Type} (f : str * addr -> B) (d : list (str * addr)) (k : str) :
  NoDup (map f d) -> NoDup (map f (dict_pop d k)).
Proof.
  induction d as [|[k' v'] d IH]; simpl; intros Hnd; [constructor|].
  inversion Hnd; subst. destruct (str_eqb k' k); simpl; [assumption|].
  constructor; [|now apply IH].
  intros Hin. apply in_map_iff in Hin. destruct Hin as (e & He & Hin).
  apply dict_pop_in in Hin.
  match goal with H : ~ In _ (map f d) |- _ => apply H end.
  apply in_map_iff. eauto.
Qed.

Lemma empty_cache_inv (o : option str) (d : str) : cache_inv (empty_cache o d).
Proof. split; [apply empty_cache_wf|split; constructor]. Qed.

Lemma create_tile_inv (c : TileCacher) (idx : str) (row col : Z) (m : str) (zoom : Z) :
  cache_inv c -> cache_inv (snd (create_tile c idx row col m zoom)).
Proof.
  intros (Hwf & Hk & Hv). unfold create_tile. simpl. split; [|split]; simpl.
  - intros k a Hin. simpl in *. rewrite length_app. simpl.
    apply dict_set_in in Hin. destruct Hin as [Hin| ->]; [apply Hwf in Hin|]; lia.
  - rewrite dict_set_keys. destruct (dict_get (tiles c) idx) eqn:E; [assumption|].
    apply nodup_snoc; [assumption|]. now apply dict_get_none_notin.
  - apply dict_set_values; [assumption|].
    intros Hin. apply in_map_iff in Hin. destruct Hin as ([k a] & Ha & Hin).
    simpl in Ha. subst a. apply Hwf in Hin. lia.
Qed.

Lemma count_inv (c : TileCacher) :
  cache_inv c -> cache_inv (count_miss c) /\ cache_inv (count_hit c).
Proof. intros H. split; exact H. Qed.

Lemma _get_tile_inv {S : Type} (h : handler S) (s : S) (c : TileCacher) (row col : Z) (m : str)
    (zoom : Z) :
  cache_inv c -> cache_inv (snd (result (run h (_get_tile c row col m zoom) s))).
Proof.
  intros H. rewrite _get_tile_run.
  destruct (dict_get (tiles c) _) as [a|].
  - destruct (idle c a); simpl; [apply count_inv|]; exact H.
  - simpl.
    destruct (fst (h unit (getortho_Tile col row (effective_maptype c m) zoom (cache_dir c)) s))
      as [e|u]; simpl.
    + apply count_inv. exact H.
    + apply create_tile_inv. apply count_inv. exact H.
Qed.

Lemma bump_refs_inv (c : TileCacher) (t : addr) (d : Z) : cache_inv c -> cache_inv (bump_refs c t d).
Proof.
  intros (Hwf & Hk & Hv). split; [now apply bump_refs_wf|]. split; assumption.
Qed.

Lemma evict_inv (c : TileCacher) (k : str) (a : addr) : cache_inv c -> cache_inv (evict c k a).
Proof.
  intros (Hwf & Hk & Hv). unfold evict. split; [|split]; simpl.
  - intros k' a' Hin. simpl in *. rewrite store_upd_length.
    apply dict_pop_in in Hin. eapply Hwf; eassumption.
  - now apply dict_pop_nodup.
  - now apply dict_pop_nodup.
Qed.

Lemma clean_key_inv (c : TileCacher) (k : str) : cache_inv c -> cache_inv (clean_key c k).
Proof.
  intros H. unfold clean_key. destruct (dict_get (tiles c) k) as [a|]; [|exact H].
  destruct (idle c a); [now apply evict_inv|exact H].
Qed.

Lemma clean_pass_inv (c : TileCacher) : cache_inv c -> cache_inv (clean_pass c).
Proof.
  unfold clean_pass. generalize (firstn 20 (dict_keys (tiles c))). intros ks. revert c.
  induction ks as [|k ks IH]; intros c H; simpl; [exact H|].
  apply IH. now apply clean_key_inv.
Qed.

Lemma serve_other_keeps_cache {S : Type} (cwd : str) (h : handler S) (s : S) (ao : AutoOrtho)
    (r : request) :
  is_open_read_release r = false ->
  snd (result (run h (serve cwd ao r) s)) = ao.
Proof.
  intros Hk.
  destruct r; try discriminate Hk; unfold serve;
    match goal with |- context [replying ?g ?p] => rewrite (proj1 (run_replying h g p s)) end;
    unfold _access, chmod, chown, getattr, readdir, readlink, mknod, rmdir, mkdir, statfs,
      unlink, symlink, rename, link, utimens, _create, _write, truncate, _flush,
      _releasedir, close, call, ret; simpl; answer h; reflexivity.
Qed.

(** The cache after an open, read or release of a recognized path: what
    [_get_tile] left, with the count of the tile it returned changed. *)
Lemma after_virtual_cache {S : Type} (cwd : str) (h : handler S) (s : S) (ao : AutoOrtho)
    (r : request) (p row col m zoom : str) :
  is_open_read_release r = true -> request_paths r = [p] ->
  dds_match p = Some (row, col, m, zoom) ->
  let g := result (run h (_get_tile (tc ao) (py_int row) (py_int col) m (py_int zoom)) s) in
  tc (fst (after cwd h s ao r))
  = match fst g, r with
    | inl _, _ | _, Read _ _ _ _ => snd g
    | inr t, _ => bump_refs (snd g) t (count_change r)
    end.
Proof.
  intros Hkind Hp Hm.
  destruct r; try discriminate Hkind; simpl in Hp; injection Hp as ->;
    unfold after, serve; cbn [fst];
    match goal with |- context [replying ?g ?p] => rewrite (proj1 (run_replying h g p s)) end.
  - unfold open. rewrite Hm, get_tile_run.
    destruct (fst (result (run h (_get_tile (tc ao) (py_int row) (py_int col) m (py_int zoom)) s)));
      reflexivity.
  - unfold read. rewrite Hm, get_tile_run.
    destruct (fst (result (run h (_get_tile (tc ao) (py_int row) (py_int col) m (py_int zoom)) s)))
      as [e|t]; [reflexivity|].
    unfold call. simpl.
    match goal with |- context [h bytes ?c ?s0] => destruct (h bytes c s0) as [[e|data] s'] end;
      reflexivity.
  - unfold release. rewrite Hm, get_tile_run.
    destruct (fst (result (run h (_get_tile (tc ao) (py_int row) (py_int col) m (py_int zoom)) s)));
      reflexivity.
Qed.

Lemma after_inv {S : Type} (cwd : str) (h : handler S) (s : S) (ao : AutoOrtho) (r : request) :
  cache_inv (tc ao) -> cache_inv (tc (fst (after cwd h s ao r))).
Proof.
  intros H.
  destruct (is_open_read_release r) eqn:Hk.
  - assert (Hp : exists p, request_paths r = [p])
      by (destruct r; try discriminate Hk; simpl; eauto).
    destruct Hp as (p & Hp).
    destruct (dds_match p) as [[[[row col] m] zoom]|] eqn:Hm.
    + rewrite (@after_virtual_cache S cwd h s ao r p row col m zoom Hk Hp Hm).
      pose proof (@_get_tile_inv S h s (tc ao) (py_int row) (py_int col) m (py_int zoom) H) as Hg.
      destruct (fst (result (run h (_get_tile (tc ao) (py_int row) (py_int col) m (py_int zoom)) s)));
        destruct r; try discriminate Hk; first [exact Hg | now apply bump_refs_inv].
    + unfold after. simpl fst. rewrite serve_real_keeps_cache; [exact H|].
      rewrite Hp. repeat constructor. exact Hm.
  - unfold after. simpl fst. now rewrite serve_other_keeps_cache.
Qed.

(** Over any sequence of served requests and reclamation passes the cache
    stays a map onto distinct allocated tiles: no key is held twice, no tile
    is held under two keys, and every key leads to a constructed tile. *)
Theorem cache_inv_kept {S : Type} (cwd : str) (h : handler S) (es : list event) :
  forall (s : S) (ao : AutoOrtho),
  cache_inv (tc ao) -> cache_inv (tc (fst (run_events cwd h s ao es))).
Proof.
  induction es as [|[r|] es IH]; intros s ao H.
  - exact H.
  - pose proof (@after_inv S cwd h s ao r H) as H1.
    change (run_events cwd h s ao (Served r :: es))
      with (let '(ao', s') := after cwd h s ao r in run_events cwd h s' ao' es).
    destruct (after cwd h s ao r) as [ao' s']. apply IH. exact H1.
  - change (run_events cwd h s ao (Cleaned :: es))
      with (run_events cwd h s (with_tc ao (clean_pass (tc ao))) es).
    apply IH. simpl. now apply clean_pass_inv.
Qed.

Lemma cache_inv_kept_witness :
  cache_inv (tc (fst (run_events (lit "/") absent_host tt fresh_mount
                        [Served (Open sample_path 0); Served (Read sample_path 128 0 0);
                         Cleaned; Served (Release sample_path 0); Cleaned;
                         Served (Getattr sample_path None)]))).
Proof.
  apply (@cache_inv_kept unit (lit "/") absent_host). apply empty_cache_inv.
Defined.

(** ** Calls of [_get_tile] in sequence *)

Lemma repeat_get_tile_step {S : Type} (h : handler S) (s : S) (n : nat) (c : TileCacher)
    (row col : Z) (m : str) (zoom : Z) :
  repeat_get_tile h s (Datatypes.S n) c row col m zoom
  = (fst (result (run h (_get_tile c row col m zoom) s))
       :: fst (repeat_get_tile h (host (run h (_get_tile c row col m zoom) s)) n
                 (snd (result (run h (_get_tile c row col m zoom) s))) row col m zoom),
     snd (repeat_get_tile h (host (run h (_get_tile c row col m zoom) s)) n
            (snd (result (run h (_get_tile c row col m zoom) s))) row col m zoom)).
Proof.
  cbn [repeat_get_tile].
  now destruct (repeat_get_tile h (host (run h (_get_tile c row col m zoom) s)) n
                  (snd (result (run h (_get_tile c row col m zoom) s))) row col m zoom).
Qed.

Lemma repeat_get_tile_idle {S : Type} (h : handler S) (n : nat) (row col : Z) (m : str) (zoom : Z)
    (a : addr) :
  forall s c,
  dict_get (tiles c) (tile_idx row col (effective_maptype c m) zoom) = Some a ->
  idle c a = true ->
  fst (repeat_get_tile h s n c row col m zoom) = repeat (inr a) n
  /\ constructed (snd (repeat_get_tile h s n c row col m zoom)) = constructed c
  /\ misses (snd (repeat_get_tile h s n c row col m zoom)) = misses c
  /\ hits (snd (repeat_get_tile h s n c row col m zoom)) = hits c + Z.of_nat n.
Proof.
  induction n as [|n IH]; intros s c Hget Hidle.
  - simpl. repeat split. lia.
  - rewrite repeat_get_tile_step, _get_tile_run, Hget, Hidle. cbn [fst snd result host].
    destruct (IH s (count_hit c) Hget Hidle) as (E1 & E2 & E3 & E4).
    split; [simpl; now rewrite E1|]. split; [exact E2|]. split; [exact E3|].
    rewrite E4. unfold count_hit. simpl hits. lia.
Qed.

Lemma repeat_get_tile_once {S : Type} (h : handler S) (n : nat) (row col : Z) (m : str) (zoom : Z) :
  forall s c,
  dict_get (tiles c) (tile_idx row col (effective_maptype c m) zoom) = None ->
  (constructed (snd (repeat_get_tile h s n c row col m zoom)) <= Datatypes.S (constructed c))%nat.
Proof.
  induction n as [|n IH]; intros s c Hget.
  - simpl. lia.
  - rewrite repeat_get_tile_step, _get_tile_run, Hget.
    destruct (h unit (getortho_Tile col row (effective_maptype c m) zoom (cache_dir c)) s)
      as [[e|u] s'].
    + cbn [fst snd result host]. apply (IH s' (count_miss c)). exact Hget.
    + cbn [fst snd result host].
      set (c1 := snd (create_tile (count_miss c) (tile_idx row col (effective_maptype c m) zoom)
                        row col (effective_maptype c m) zoom)).
      assert (H1 : dict_get (tiles c1) (tile_idx row col (effective_maptype c1 m) zoom)
                   = Some (List.length (store c))) by apply dict_get_set_same.
      assert (H2 : idle c1 (List.length (store c)) = true)
        by (unfold idle, c1; simpl; now rewrite deref_fresh).
      destruct (@repeat_get_tile_idle S h n row col m zoom _ s' c1 H1 H2) as (_ & E2 & _).
      rewrite E2. unfold constructed, c1. simpl. rewrite length_app. simpl. lia.
Qed.

(** Calls in sequence for an identity that is not cached, on any host.  When
    the constructor succeeds at the first call, that call counts a miss and
    constructs the tile, and every later one counts a hit and returns that
    same tile.  When it raises, the call raises with it, having counted a
    miss and cached nothing, and the calls that follow go on from the same
    dictionary and store.  However the constructor answers, at most one tile
    is constructed. *)
Theorem repeat_get_tile_fresh {S : Type} (h : handler S) (s : S) (n : nat) (c : TileCacher)
    (row col : Z) (m : str) (zoom : Z) :
  dict_get (tiles c) (tile_idx row col (effective_maptype c m) zoom) = None ->
  let ans := h unit (getortho_Tile col row (effective_maptype c m) zoom (cache_dir c)) s in
  let out := repeat_get_tile h s (Datatypes.S n) c row col m zoom in
  (fst ans = inr tt ->
     fst out = repeat (inr (List.length (store c))) (Datatypes.S n)
     /\ constructed (snd out) = Datatypes.S (constructed c)
     /\ misses (snd out) = misses c + 1
     /\ hits (snd out) = hits c + Z.of_nat n)
  /\ (forall e, fst ans = inl e ->
        out = (inl e :: fst (repeat_get_tile h (snd ans) n (count_miss c) row col m zoom),
               snd (repeat_get_tile h (snd ans) n (count_miss c) row col m zoom)))
  /\ (constructed (snd out) <= Datatypes.S (constructed c))%nat.
Proof.
  intros Hget ans out. split; [|split].
  - intros Hok. subst out. rewrite repeat_get_tile_step, _get_tile_run, Hget.
    fold ans. rewrite Hok. cbn [fst snd result host].
    set (idx := tile_idx row col (effective_maptype c m) zoom) in *.
    set (c1 := snd (create_tile (count_miss c) idx row col (effective_maptype c m) zoom)).
    assert (H1 : dict_get (tiles c1) (tile_idx row col (effective_maptype c1 m) zoom)
                 = Some (List.length (store c)))
      by apply dict_get_set_same.
    assert (H2 : idle c1 (List.length (store c)) = true)
      by (unfold idle, c1; simpl; now rewrite deref_fresh).
    destruct (@repeat_get_tile_idle S h n row col m zoom _ (snd ans) c1 H1 H2)
      as (E1 & E2 & E3 & E4).
    split; [simpl; now rewrite E1|].
    split; [rewrite E2; unfold constructed, c1; simpl; rewrite length_app; simpl; lia|].
    split; [rewrite E3; reflexivity|]. rewrite E4. reflexivity.
  - intros e He. subst out. rewrite repeat_get_tile_step, _get_tile_run, Hget.
    fold ans. rewrite He. reflexivity.
  - apply repeat_get_tile_once. exact Hget.
Qed.

Lemma repeat_get_tile_fresh_witness :
  (let out := repeat_get_tile provider_host tt 4 (empty_cache None (lit ".cache"))
                24832 12416 (lit "BI") 16 in
   fst out = [inr 0; inr 0; inr 0; inr 0]%nat /\ constructed (snd out) = 1%nat
   /\ misses (snd out) = 1 /\ hits (snd out) = 3)
  /\ (let out := repeat_get_tile absent_host tt 4 (empty_cache None (lit ".cache"))
                   24832 12416 (lit "BI") 16 in
      fst out = [inl ENOENT; inl ENOENT; inl ENOENT; inl ENOENT]
      /\ constructed (snd out) = 0%nat /\ misses (snd out) = 4).
Proof.
  split.
  - destruct (@repeat_get_tile_fresh unit provider_host tt 3 (empty_cache None (lit ".cache"))
                24832 12416 (lit "BI") 16 eq_refl) as (H & _).
    exact (H eq_refl).
  - destruct (@repeat_get_tile_fresh unit absent_host tt 3 (empty_cache None (lit ".cache"))
                24832 12416 (lit "BI") 16 eq_refl) as (_ & H & _).
    cbv zeta. rewrite (H ENOENT eq_refl). repeat split.
Defined.

Lemma dict_get_set_other (d : list (str * addr)) (k k2 : str) (v : addr) :
  k2 <> k -> dict_get (dict_set d k v) k2 = dict_get d k2.
Proof.
  intros Hne. induction d as [|[k' v'] d IH]; simpl.
  - destruct (str_eqb k k2) eqn:E; [|reflexivity].
    apply str_eqb_eq in E. congruence.
  - destruct (str_eqb k' k) eqn:E; simpl.
    + apply str_eqb_eq in E. subst k'.
      destruct (str_eqb k k2) eqn:E2; [|reflexivity].
      apply str_eqb_eq in E2. congruence.
    + now rewrite IH.
Qed.

(** [_get_tile] touches nothing but its own key, on any host and whether
    or not the constructor raises: the handle cached under every other key
    is the same afterwards, and every tile constructed before is unchanged
    (its reference count and whether it is closed); a key that is cached is
    answered with its handle and leaves the dictionary and the store as they
    were; the configured override and cache directory stay. *)
Theorem _get_tile_frame {S : Type} (h : handler S) (s : S) (c : TileCacher) (row col : Z)
    (m : str) (zoom : Z) :
  let idx := tile_idx row col (effective_maptype c m) zoom in
  let out := result (run h (_get_tile c row col m zoom) s) in
  let c' := snd out in
  (forall k, k <> idx -> dict_get (tiles c') k = dict_get (tiles c) k)
  /\ (forall a, (a < List.length (store c))%nat -> deref (store c') a = deref (store c) a)
  /\ (forall a n, dict_get (tiles c) idx = Some a -> refs_at c a = Some n ->
        fst out = inr a /\ tiles c' = tiles c /\ store c' = store c)
  /\ maptype_override c' = maptype_override c
  /\ cache_dir c' = cache_dir c.
Proof.
  intros idx out c'. subst c' out. rewrite _get_tile_run. fold idx.
  destruct (dict_get (tiles c) idx) as [a|] eqn:Hget.
  - destruct (idle c a); simpl; (split; [auto|split; [auto|split; [|auto]]]);
      intros a' n' [= <-] _; auto.
  - destruct (fst (h unit (getortho_Tile col row (effective_maptype c m) zoom (cache_dir c)) s))
      as [e|u].
    + simpl. split; [auto|split; [auto|split; [discriminate|auto]]].
    + unfold create_tile. simpl. split; [|split; [|split; [|auto]]].
      * intros k Hk. now apply dict_get_set_other.
      * intros a Ha. unfold deref. now rewrite nth_error_app1.
      * discriminate.
Qed.

Lemma _get_tile_frame_witness :
  let c := one_tile_cache 1 in
  let c' := snd (result (run provider_host (_get_tile c 1 2 (lit "BI") 16) tt)) in
  dict_get (tiles c') sample_key = Some 0%nat
  /\ deref (store c') 0%nat = deref (store c) 0%nat.
Proof.
  intros c c'.
  destruct (@_get_tile_frame unit provider_host tt c 1 2 (lit "BI") 16) as (Hk & Ha & _).
  split.
  - unfold c'. rewrite Hk; [reflexivity|]. vm_compute. discriminate.
  - apply Ha. simpl. lia.
Defined.

(** A release of a virtual path whose tile is not cached (never opened, or
    reclaimed since) asks the provider to construct the tile anew and counts
    a miss.  When the constructor succeeds the release is not an error: it
    returns 0 and leaves the reference count of the new tile at -1.  When
    the constructor raises, the release raises with it and nothing is
    cached.  No host path is named either way. *)
Theorem release_without_tile {S : Type} (h : handler S) (s : S) (ao : AutoOrtho)
    (p row col m zoom : str) (fh : Z) :
  dds_match p = Some (row, col, m, zoom) ->
  let idx := tile_idx (py_int row) (py_int col) (effective_maptype (tc ao) m) (py_int zoom) in
  let new := getortho_Tile (py_int col) (py_int row) (effective_maptype (tc ao) m) (py_int zoom)
               (cache_dir (tc ao)) in
  dict_get (tiles (tc ao)) idx = None ->
  cache_wf (tc ao) ->
  let out := run h (release ao p fh) s in
  calls_of h (release ao p fh) s = [Issued new]
  /\ misses (tc (snd (result out))) = misses (tc ao) + 1
  /\ touched out = []
  /\ (fst (h unit new s) = inr tt ->
        fst (result out) = Ok (Some 0)
        /\ refcount (tc (snd (result out))) idx = -1
        /\ constructed (tc (snd (result out))) = Datatypes.S (constructed (tc ao)))
  /\ (forall e, fst (h unit new s) = inl e ->
        fst (result out) = Err e
        /\ tiles (tc (snd (result out))) = tiles (tc ao)
        /\ store (tc (snd (result out))) = store (tc ao)).
Proof.
  intros Hm idx new Hget Hwf out.
  assert (Hcalls : calls_of h (release ao p fh) s = [Issued new]).
  { unfold release. rewrite Hm, get_tile_calls, _get_tile_calls, _get_tile_run. fold idx new.
    rewrite Hget. fold new. cbn [fst snd result host].
    destruct (fst (h unit new s)); reflexivity. }
  subst out. rewrite (@release_virtual S h s ao p row col m zoom fh Hm).
  destruct (@get_tile_then_bump S (option Z) h s ao (py_int row) (py_int col) m (py_int zoom)
              (-1) (Some 0) Hwf) as (_ & _ & Ht & M).
  fold idx new in M. rewrite Hget in M.
  split; [exact Hcalls|].
  destruct (fst (h unit new s)) as [e|u] eqn:Hans.
  - destruct M as (He & Hc). rewrite Hc.
    split; [reflexivity|]. split; [exact Ht|]. split; [discriminate|].
    intros e' [= <-]. repeat split. exact He.
  - destruct M as (Hok & Hrc & _ & Hcon & Hmiss).
    split; [exact Hmiss|]. split; [exact Ht|]. split; [|discriminate].
    intros _. split; [exact Hok|]. split; [|exact Hcon].
    rewrite Hrc. unfold refcount. now rewrite Hget.
Qed.

Lemma release_without_tile_witness :
  (let out := run provider_host (release fresh_mount sample_path 0) tt in
   fst (result out) = Ok (Some 0)
   /\ refcount (tc (snd (result out))) sample_key = -1
   /\ constructed (tc (snd (result out))) = 1%nat)
  /\ (let out := run absent_host (release fresh_mount sample_path 0) tt in
      fst (result out) = Err ENOENT /\ tiles (tc (snd (result out))) = []).
Proof.
  split.
  - destruct (@release_without_tile unit provider_host tt fresh_mount sample_path
                (lit "24832") (lit "12416") (lit "BI") (lit "16") 0 eq_refl eq_refl
                (@empty_cache_wf None (lit ".cache"))) as (_ & _ & _ & H & _).
    exact (H eq_refl).
  - destruct (@release_without_tile unit absent_host tt fresh_mount sample_path
                (lit "24832") (lit "12416") (lit "BI") (lit "16") 0 eq_refl eq_refl
                (@empty_cache_wf None (lit ".cache"))) as (_ & _ & _ & _ & H).
    destruct (H ENOENT eq_refl) as (H1 & H2 & _). split; [exact H1|exact H2].
Defined.

(** Run with no other thread in between, [_get_tile] counts a miss exactly
    when no handle is cached under the key, whether the constructor then
    succeeds (a tile is constructed and inserted) or raises (nothing is
    inserted); it counts a hit exactly when a handle is cached with a
    reference count of at most 0; with a handle of positive count neither
    counter moves. *)
Theorem _get_tile_counters {S : Type} (h : handler S) (s : S) (c : TileCacher) (row col : Z)
    (map_type : str) (zoom : Z) :
  let idx := tile_idx row col (effective_maptype c map_type) zoom in
  let new := getortho_Tile col row (effective_maptype c map_type) zoom (cache_dir c) in
  let out := result (run h (_get_tile c row col map_type zoom) s) in
  let c' := snd out in
  (dict_get (tiles c) idx = None ->
     misses c' = misses c + 1 /\ hits c' = hits c
     /\ match fst (h unit new s) with
        | inr _ =>
            fst out = inr (List.length (store c))
            /\ constructed c' = Datatypes.S (constructed c)
            /\ dict_get (tiles c') idx = Some (List.length (store c))
        | inl e => fst out = inl e /\ tiles c' = tiles c /\ store c' = store c
        end)
  /\ (forall a n, dict_get (tiles c) idx = Some a -> refs_at c a = Some n -> n <= 0 ->
     hits c' = hits c + 1 /\ misses c' = misses c /\ constructed c' = constructed c
     /\ fst out = inr a)
  /\ (forall a n, dict_get (tiles c) idx = Some a -> refs_at c a = Some n -> 0 < n ->
     hits c' = hits c /\ misses c' = misses c /\ constructed c' = constructed c
     /\ fst out = inr a).
Proof.
  intros idx new out c'. subst c' out. rewrite _get_tile_run. fold idx new.
  split; [|split].
  - intros Hget. rewrite Hget.
    destruct (fst (h unit new s)) as [e|u]; simpl; [repeat split|].
    unfold constructed, create_tile. simpl.
    rewrite length_app, dict_get_set_same. simpl. repeat split; lia.
  - intros a n Hget Hrefs Hn. rewrite Hget, (idle_refs c a Hrefs).
    apply Z.leb_le in Hn. rewrite Hn. simpl. auto.
  - intros a n Hget Hrefs Hn. rewrite Hget, (idle_refs c a Hrefs).
    apply Z.leb_gt in Hn. rewrite Hn. simpl. auto.
Qed.

(** The cases at concrete caches: nothing cached and a constructor that
    raises, the tile cached and idle, the tile cached and open once. *)
Lemma _get_tile_counters_witness :
  (let c := empty_cache None (lit ".cache") in
   let out := result (run absent_host (_get_tile c 24832 12416 (lit "BI") 16) tt) in
   misses (snd out) = misses c + 1 /\ hits (snd out) = hits c)
  /\ (let c := one_tile_cache 0 in
      let out := result (run absent_host (_get_tile c 24832 12416 (lit "BI") 16) tt) in
      hits (snd out) = hits c + 1 /\ misses (snd out) = misses c)
  /\ (let c := one_tile_cache 1 in
      let out := result (run absent_host (_get_tile c 24832 12416 (lit "BI") 16) tt) in
      hits (snd out) = hits c /\ misses (snd out) = misses c).
Proof.
  split; [|split]; intros c out.
  - destruct (@_get_tile_counters unit absent_host tt c 24832 12416 (lit "BI") 16) as [H _].
    destruct (H eq_refl) as (Hm & Hh & _). split; assumption.
  - destruct (@_get_tile_counters unit absent_host tt c 24832 12416 (lit "BI") 16)
      as (_ & H & _).
    destruct (H O 0 eq_refl eq_refl ltac:(lia)) as (Hh & Hm & _). split; assumption.
  - destruct (@_get_tile_counters unit absent_host tt c 24832 12416 (lit "BI") 16)
      as (_ & _ & H).
    destruct (H O 1 eq_refl eq_refl ltac:(lia)) as (Hh & Hm & _). split; assumption.
Defined.

(** ** A reclamation pass run without interruption *)

Lemma clean_key_counters (c : TileCacher) (k : str) :
  hits (clean_key c k) = hits c /\ misses (clean_key c k) = misses c
  /\ constructed (clean_key c k) = constructed c.
Proof.
  unfold clean_key. destruct (dict_get (tiles c) k) as [a|]; [|auto].
  destruct (idle c a); [|auto]. unfold evict, constructed. simpl.
  now rewrite store_upd_length.
Qed.

Lemma clean_key_busy_tile (c : TileCacher) (k : str) (b : addr) :
  idle c b = false ->
  deref (store (clean_key c k)) b = deref (store c) b /\ idle (clean_key c k) b = false.
Proof.
  intros Hb. unfold clean_key. destruct (dict_get (tiles c) k) as [a|]; [|auto].
  destruct (idle c a) eqn:Ha; [|auto].
  split.
  - unfold evict. simpl. apply deref_upd_other. congruence.
  - rewrite (@idle_same_refs c (evict c k a) b (@evict_same_refs c k a)). exact Hb.
Qed.

Lemma clean_fold_busy_tile (ks : list str) (b : addr) :
  forall c, idle c b = false ->
  deref (store (fold_left clean_key ks c)) b = deref (store c) b
  /\ hits (fold_left clean_key ks c) = hits c
  /\ misses (fold_left clean_key ks c) = misses c
  /\ constructed (fold_left clean_key ks c) = constructed c.
Proof.
  induction ks as [|k ks IH]; intros c Hb; simpl; [auto|].
  destruct (clean_key_busy_tile c k b Hb) as (Hd & Hi).
  destruct (clean_key_counters c k) as (Hh & Hm & Hc).
  destruct (IH (clean_key c k) Hi) as (E1 & E2 & E3 & E4).
  rewrite E1, E2, E3, E4. auto.
Qed.

Lemma clean_fold_counters (ks : list str) :
  forall c,
  hits (fold_left clean_key ks c) = hits c
  /\ misses (fold_left clean_key ks c) = misses c
  /\ constructed (fold_left clean_key ks c) = constructed c.
Proof.
  induction ks as [|k ks IH]; intros c; simpl; [auto|].
  destruct (clean_key_counters c k) as (Hh & Hm & Hc).
  destruct (IH (clean_key c k)) as (E2 & E3 & E4).
  rewrite E2, E3, E4. auto.
Qed.

Lemma clean_pass_tiles (c : TileCacher) :
  NoDup (dict_keys (tiles c)) ->
  tiles (clean_pass c)
  = filter (fun e => negb (idle c (snd e))) (firstn 20 (tiles c)) ++ skipn 20 (tiles c).
Proof.
  intros Hnd.
  assert (Hsplit : tiles c = [] ++ firstn 20 (tiles c) ++ skipn 20 (tiles c))
    by exact (eq_sym (firstn_skipn 20 (tiles c))).
  assert (Hnd' : NoDup (map fst ([] ++ firstn 20 (tiles c) ++ skipn 20 (tiles c))))
    by (rewrite <- Hsplit; exact Hnd).
  destruct (@clean_keys_fold c (firstn 20 (tiles c)) [] (skipn 20 (tiles c)) c Hsplit Hnd'
              (fun a => eq_refl)) as (Ht & _).
  unfold clean_pass, dict_keys. rewrite firstn_map. exact Ht.
Qed.

(** Run without interruption, a pass of [clean] removes no entry whose tile
    has a positive reference count and does not close such a tile, removes no
    entry beyond the twentieth, and neither moves the hit and miss counters
    nor constructs a tile. *)
Theorem clean_pass_keeps_referenced (c : TileCacher) :
  NoDup (dict_keys (tiles c)) ->
  (forall k a n, In (k, a) (tiles c) -> refs_at c a = Some n -> 0 < n ->
     In (k, a) (tiles (clean_pass c)) /\ deref (store (clean_pass c)) a = deref (store c) a)
  /\ (forall e, In e (skipn 20 (tiles c)) -> In e (tiles (clean_pass c)))
  /\ hits (clean_pass c) = hits c
  /\ misses (clean_pass c) = misses c
  /\ constructed (clean_pass c) = constructed c.
Proof.
  intros Hnd. pose proof (@clean_pass_tiles c Hnd) as Ht.
  split; [|split].
  - intros k a n Hin Hrefs Hn.
    assert (Hbusy : idle c a = false)
      by (rewrite (@idle_refs c a n Hrefs); now apply Z.leb_gt).
    split.
    + rewrite Ht. rewrite <- (firstn_skipn 20 (tiles c)) in Hin.
      apply in_app_iff in Hin. apply in_app_iff. destruct Hin as [Hin|Hin]; [left|now right].
      apply filter_In. split; [assumption|]. simpl. now rewrite Hbusy.
    + unfold clean_pass. now apply clean_fold_busy_tile.
  - intros e He. rewrite Ht. apply in_app_iff. now right.
  - unfold clean_pass. apply clean_fold_counters.
Qed.

Lemma clean_pass_keeps_referenced_witness :
  In (tile_idx 1 7 (lit "BI") 16, 0%nat) (tiles (clean_pass three_tiles))
  /\ deref (store (clean_pass three_tiles)) 0%nat = deref (store three_tiles) 0%nat.
Proof.
  assert (Hnd : NoDup (dict_keys (tiles three_tiles))).
  { repeat constructor; simpl; intuition discriminate. }
  destruct (@clean_pass_keeps_referenced three_tiles Hnd) as (H & _).
  apply (H (tile_idx 1 7 (lit "BI") 16) 0%nat 1).
  - simpl. now left.
  - reflexivity.
  - lia.
Defined.

(** ** Paired opens and releases served in turn *)

Lemma _get_tile_returns {S : Type} (h : handler S) (s : S) (c : TileCacher) (row col : Z)
    (m : str) (zoom : Z) :
  reliable h -> exists t, fst (result (run h (_get_tile c row col m zoom) s)) = inr t.
Proof.
  intros Hrel. rewrite _get_tile_run.
  destruct (dict_get (tiles c) _) as [a|]; [eexists; reflexivity|].
  rewrite Hrel. eexists. reflexivity.
Qed.

(** What serving one open, read or release of a virtual path does to the
    count of its identity where the constructor does not fail. *)
Lemma after_virtual {S : Type} (cwd : str) (h : handler S) (s : S) (ao : AutoOrtho)
    (r : request) (p idx : str) :
  reliable h ->
  is_open_read_release r = true -> request_paths r = [p] ->
  path_key (tc ao) p = Some idx -> cache_wf (tc ao) ->
  let ao' := fst (after cwd h s ao r) in
  refcount (tc ao') idx = refcount (tc ao) idx + count_change r
  /\ cache_wf (tc ao')
  /\ maptype_override (tc ao') = maptype_override (tc ao).
Proof.
  intros Hrel Hkind Hp Hkey Hwf ao'. subst ao'. unfold path_key in Hkey.
  destruct (dds_match p) as [[[[row col] m] zoom]|] eqn:Hm; [|discriminate].
  injection Hkey as <-.
  rewrite (@after_virtual_cache S cwd h s ao r p row col m zoom Hkind Hp Hm).
  destruct (@_get_tile_post S h s (tc ao) (py_int row) (py_int col) m (py_int zoom) Hwf)
    as (Hwf1 & Hov & Hrc & Hg).
  destruct (@_get_tile_returns S h s (tc ao) (py_int row) (py_int col) m (py_int zoom) Hrel)
    as (t & Ht).
  rewrite Ht in Hg |- *. destruct Hg as (Hget & Hlt).
  destruct r; try discriminate Hkind; cbn [count_change].
  - split; [|split; [now apply bump_refs_wf|exact Hov]].
    rewrite refcount_bump by assumption. now rewrite Hrc.
  - split; [|split; [exact Hwf1|exact Hov]]. rewrite Hrc. lia.
  - split; [|split; [now apply bump_refs_wf|exact Hov]].
    rewrite refcount_bump by assumption. now rewrite Hrc.
Qed.

Lemma on_identity_override (c c' : TileCacher) (idx : str) (rs : list request) :
  maptype_override c' = maptype_override c -> on_identity c idx rs -> on_identity c' idx rs.
Proof.
  intros Hov. apply Forall_impl. intros r (p & Hp & Hk). exists p. split; [assumption|].
  now rewrite (@path_key_override c c' p Hov).
Qed.

Lemma refcount_paired_from {S : Type} (cwd : str) (h : handler S) (idx : str) (rs : list request) :
  reliable h ->
  forall (depth : nat) (ao : AutoOrtho) (s : S),
  cache_wf (tc ao) -> on_identity (tc ao) idx rs -> paired depth rs = true ->
  refcount (tc (fst (serve_all cwd h s ao rs))) idx = refcount (tc ao) idx - Z.of_nat depth
  /\ forall n, refcount (tc ao) idx - Z.of_nat depth
               <= refcount (tc (fst (serve_all cwd h s ao (firstn n rs)))) idx.
Proof.
  intros Hrel. induction rs as [|r rs IH]; intros depth ao s Hwf Hon Hp.
  - simpl in Hp. apply Nat.eqb_eq in Hp. subst depth. simpl. split; [lia|].
    intros n. rewrite firstn_nil. simpl. lia.
  - inversion Hon as [|? ? (p & Hpath & Hkey) Hon']; subst.
    assert (Hkind : is_open_read_release r = true) by (destruct r; try discriminate Hp; reflexivity).
    destruct (@after_virtual S cwd h s ao r p idx Hrel Hkind Hpath Hkey Hwf) as (Hrc & Hwf' & Hov).
    assert (Hon2 : on_identity (tc (fst (after cwd h s ao r))) idx rs)
      by (eapply on_identity_override; eassumption).
    rewrite serve_all_cons.
    set (ao' := fst (after cwd h s ao r)) in *. set (s' := snd (after cwd h s ao r)) in *.
    assert (Hstep : exists depth', paired depth' rs = true
              /\ Z.of_nat depth' = Z.of_nat depth + count_change r).
    { destruct r; try discriminate Hp; simpl in Hp.
      - exists (Datatypes.S depth). split; [assumption|unfold count_change; lia].
      - exists depth. split; [assumption|unfold count_change; lia].
      - destruct depth as [|d]; [discriminate|]. exists d. split; [assumption|unfold count_change; lia]. }
    destruct Hstep as (depth' & Hp' & Hd).
    destruct (IH depth' ao' s' Hwf' Hon2 Hp') as (Hfin & Hpre).
    split; [lia|].
    intros [|n].
    + simpl. lia.
    + rewrite firstn_cons, serve_all_cons. fold ao' s'. specialize (Hpre n). lia.
Qed.

(** Where the calls of the filesystem are served one after the other, each
    complete before the next begins, and the constructor of the tile
    provider does not fail: over a sequence of open, read and release calls
    on the virtual paths of one identity in which every release closes an
    earlier open of the sequence and no open is left, starting from a cache
    where the count of the identity is not negative, the reference count of
    the identity is at least 0 after every call and at the end is what it
    was at the start.  (An identity with no cached handle counts 0.) *)
Theorem refcount_paired {S : Type} (cwd : str) (h : handler S) (s : S) (ao : AutoOrtho)
    (idx : str) (rs : list request) :
  reliable h ->
  cache_wf (tc ao) ->
  0 <= refcount (tc ao) idx ->
  on_identity (tc ao) idx rs ->
  paired 0 rs = true ->
  (forall n, 0 <= refcount (tc (fst (serve_all cwd h s ao (firstn n rs)))) idx)
  /\ refcount (tc (fst (serve_all cwd h s ao rs))) idx = refcount (tc ao) idx.
Proof.
  intros Hrel Hwf H0 Hon Hp.
  destruct (@refcount_paired_from S cwd h idx rs Hrel O ao s Hwf Hon Hp) as (Hfin & Hpre).
  split.
  - intros n. specialize (Hpre n). simpl in Hpre. lia.
  - rewrite Hfin. simpl. lia.
Qed.

Lemma refcount_paired_witness :
  (forall n, 0 <= refcount (tc (fst (serve_all (lit "/") provider_host tt fresh_mount
                                      (firstn n sample_session)))) sample_key)
  /\ refcount (tc (fst (serve_all (lit "/") provider_host tt fresh_mount sample_session)))
       sample_key
     = refcount (tc fresh_mount) sample_key.
Proof.
  apply (@refcount_paired unit (lit "/") provider_host tt fresh_mount sample_key sample_session).
  - intros s col row m zoom dir. reflexivity.
  - apply empty_cache_wf.
  - vm_compute. discriminate.
  - repeat constructor; exists sample_path; split; reflexivity.
  - reflexivity.
Defined.

(** A release that closes no open is not clamped: the count goes to -1. *)
Example release_unpaired_goes_negative :
  refcount (tc (fst (serve_all (lit "/") provider_host tt fresh_mount [Release sample_path 0])))
    sample_key = -1.
Proof. reflexivity. Qed.

(** Where the constructor fails, an open raises and counts nothing, and the
    release sent after it drives the count of the tile it constructs below
    zero once the provider works again. *)
Example release_after_failed_open :
  fst (result (run absent_host (open (lit "/") fresh_mount sample_path 0) tt)) = Err ENOENT
  /\ refcount
       (tc (snd (result (run absent_host (open (lit "/") fresh_mount sample_path 0) tt))))
       sample_key = 0
  /\ refcount
       (tc (fst (serve_all (lit "/") provider_host tt
                   (snd (result (run absent_host (open (lit "/") fresh_mount sample_path 0) tt)))
                   [Release sample_path 0])))
       sample_key = -1.
Proof. repeat split. Qed.
